(** * discord-mic-bot: the capture-to-dispatch pipeline of [dmb/model.py]

    A shallow embedding of [dmb.model.Model]: the single-slot hand-off
    queue, the per-frame body of [_encode_voice_loop], the session
    operations [join_voice] / [leave_voice] and [start_recording].

    Conventions.
    - Python [int] is [Z]; [bytes] is a list of [Byte.byte].
    - Python objects that are only compared and passed around (voice
      channels, voice clients) are identified by an integer id.
    - An attribute set on a foreign object with [setattr] lives in a finite
      map keyed by the object's id; a missing key is a missing attribute.
    - What a coroutine observes of the outside world at one point in time
      (the mute flag, the client list, whether a connect succeeds) is an
      explicit argument; what it does to the outside world is a list of
      [event]s.
    - Fallible code returns [result]. *)

From Stdlib Require Import ZArith Lia Strings.Byte.
From stdpp Require Import base numbers list gmap strings.

Local Open Scope Z_scope.

(** ** Basic data *)

Abbreviation bytes := (list byte).

#[global] Instance byte_eq_dec : EqDecision byte := Byte.byte_eq_dec.

(** [len(buffer)] *)
Definition len {A} (l : list A) : Z := Z.of_nat (length l).

(** [buffer.count(x)] for a byte value [x] *)
Definition bytes_count (x : byte) (buffer : bytes) : Z :=
  len (filter (λ y, y = x) buffer).

(** [bytes(n)]: [n] zero bytes *)
Definition zero_bytes (n : nat) : bytes := replicate n x00.

(** Exceptions that the modelled code raises or lets through. *)
Inductive exn :=
| ValueError                 (* list.remove(x): x not in list *)
| QueueFull                  (* asyncio.queues.QueueFull *)
| Exception (msg : string).  (* anything raised by an external call *)

Inductive result (A : Type) :=
| Ok (a : A)
| Raise (e : exn).
Arguments Ok {A} a.
Arguments Raise {A} e.

#[global] Instance exn_eq_dec : EqDecision exn.
Proof. solve_decision. Defined.

(** [discord.SpeakingState] *)
Module SpeakingState.
Inductive t := none | voice | soundshare | priority.

#[global] Instance eq_dec : EqDecision t.
Proof. solve_decision. Defined.
End SpeakingState.

(** Everything the program does to its collaborators. *)
Inductive event :=
| EvSpeak (client : Z) (speaking : SpeakingState.t)
    (* asyncio.ensure_future(voice_client.ws.speak(speaking)) *)
| EvEncode (buffer : bytes) (frame_size max_data_bytes : Z)
    (* opus_encode_float(state, buffer, frame_size, output, max_data_bytes) *)
| EvSend (client : Z) (packet : bytes)
    (* voice_client.send_audio_packet(packet, encode=False) *)
| EvPrint (e : exn)
    (* print(e) *)
| EvEncoderCtl (request : Z) (args : list Z)
    (* opus_encoder_ctl(state, request, *args) *)
| EvConnect (channel : Z)
    (* channel.connect() *)
| EvDisconnect (client : Z)
    (* voice_client.disconnect() *)
| EvJoinedUpdated
    (* self.v.joined_updated() *)
| EvStreamOpen (device_id : nat)
    (* sounddevice.RawInputStream(..., device=device_id, ...) *)
| EvStreamStart (device_id : nat)
| EvStreamStop (device_id : nat)
| EvStreamClose (device_id : nat).

#[global] Instance event_eq_dec : EqDecision event.
Proof. solve_decision. Defined.

(** ** [asyncio.Queue]

    Only what [Model] uses of it: the bound, [put_nowait], and the effect
    of a completed [get]. *)
Module Queue.
Section Queue.
Context {A : Type}.

Record t := mk { maxsize : Z; items : list A }.

(** [asyncio.Queue(maxsize)] *)
Definition new (maxsize : Z) : t := {| maxsize := maxsize; items := [] |}.

Definition qsize (q : t) : Z := len (items q).

Definition full (q : t) : bool :=
  if maxsize q <=? 0 then false else maxsize q <=? qsize q.

Definition put_nowait (q : t) (item : A) : result t :=
  if full q then Raise QueueFull
  else Ok {| maxsize := maxsize q; items := items q ++ [item] |}.

(** [await q.get()]: [None] while the queue is empty (the caller stays
    suspended), else the head and the queue without it. *)
Definition get (q : t) : option (A * t) :=
  match items q with
  | [] => None
  | item :: rest => Some (item, {| maxsize := maxsize q; items := rest |})
  end.
End Queue.
Arguments t : clear implicits.
End Queue.

(** ** The frame hand-off: [audio_queue = asyncio.Queue(1)] *)

(** [self.audio_queue] as [__init__] creates it. *)
Definition audio_queue_init : Queue.t (option bytes) := Queue.new 1.

(** [_recording_callback_main_thread]: only [QueueFull] is caught. *)
Definition _recording_callback_main_thread
    (audio_queue : Queue.t (option bytes)) (indata : bytes)
  : result (Queue.t (option bytes)) :=
  match Queue.put_nowait audio_queue (Some indata) with
  | Ok q => Ok q
  | Raise QueueFull => Ok audio_queue            (* except QueueFull: pass *)
  | Raise e => Raise e
  end.

(** The two ends of the hand-off, both run by the event loop: the capture
    callback arrives through [call_soon_threadsafe], the consumer is
    [await self.audio_queue.get()] in [_encode_voice_loop]. *)
Inductive handoff_op :=
| Produce (indata : bytes)
| Consume.

(** What one operation lets the outside see. *)
Inductive handoff_obs :=
| Delivered (item : option bytes)   (* [get] returned [item] *)
| Suspended                         (* [get] found the queue empty *)
| Returned                          (* the callback returned *)
| Failed (e : exn).                 (* the callback raised *)

Definition handoff_step (q : Queue.t (option bytes)) (op : handoff_op)
  : Queue.t (option bytes) * handoff_obs :=
  match op with
  | Produce indata =>
      match _recording_callback_main_thread q indata with
      | Ok q' => (q', Returned)
      | Raise e => (q, Failed e)
      end
  | Consume =>
      match Queue.get q with
      | Some (item, q') => (q', Delivered item)
      | None => (q, Suspended)
      end
  end.

Fixpoint handoff_run (q : Queue.t (option bytes)) (ops : list handoff_op)
  : Queue.t (option bytes) * list handoff_obs :=
  match ops with
  | [] => (q, [])
  | op :: rest =>
      let r := handoff_step q op in
      let r' := handoff_run r.1 rest in
      (r'.1, r.2 :: r'.2)
  end.

(** What holds of [audio_queue] whatever has been done to it: the bound is
    1 and at most one item is held. *)
Definition handoff_inv (q : Queue.t (option bytes)) : Prop :=
  Queue.maxsize q = 1 ∧ (length (Queue.items q) ≤ 1)%nat.

(** ** The voice loop: [_encode_voice_loop] *)

(** The codec library behind [self.opus_encoder_private]; its state is the
    [_state] of [self.opus_encoder].  [opus_encode_float] yields the new
    state and [output[:output_len]]. *)
Class OpusLib (encoder_state : Type) := {
  opus_encode_float : encoder_state → bytes → Z → Z → encoder_state * bytes;
  opus_encoder_ctl : encoder_state → Z → list Z → encoder_state;
}.

(** What one iteration reads from outside the loop: [self.muted],
    [self.discord_client.voice_clients], and for each client what
    [is_connected()] answers and whether [send_audio_packet] raises. *)
Record Env := {
  muted : bool;
  voice_clients : list Z;
  is_connected : Z → bool;
  send_audio_packet : Z → bytes → option exn;
}.

(** What the loop owns: its local counter, the [_dmb_speaking] attributes it
    has set on voice clients, and the encoder. *)
Record loop_state {encoder_state : Type} := {
  consecutive_silence : Z;
  _dmb_speaking : gmap Z SpeakingState.t;
  opus_encoder : encoder_state;
}.
Arguments loop_state : clear implicits.

(** [getattr(voice_client, '_dmb_speaking', discord.SpeakingState.none)] *)
Definition getattr_dmb_speaking
    (attrs : gmap Z SpeakingState.t) (voice_client : Z) : SpeakingState.t :=
  default SpeakingState.none (attrs !! voice_client).

(** Lines 199-205: the buffer that goes on and the updated counter. *)
Definition gate (muted : bool) (buffer : bytes) (consecutive_silence : Z)
  : bytes * Z :=
  if muted then (zero_bytes (length buffer), consecutive_silence + 1)
  else if bytes_count x00 buffer =? len buffer
       then (buffer, consecutive_silence + 1)
       else (buffer, 0).

(** Line 207. *)
Definition speaking_of (consecutive_silence : Z) : SpeakingState.t :=
  if consecutive_silence <=? 1 then SpeakingState.voice
  else SpeakingState.none.

(** Lines 208-211: the signalling loop over the voice clients. *)
Fixpoint signal_speaking (e : Env) (speaking : SpeakingState.t)
    (attrs : gmap Z SpeakingState.t) (clients : list Z)
  : gmap Z SpeakingState.t * list event :=
  match clients with
  | [] => (attrs, [])
  | voice_client :: rest =>
      if is_connected e voice_client
         && bool_decide (getattr_dmb_speaking attrs voice_client ≠ speaking)
      then
        let r := signal_speaking e speaking
                   (<[voice_client := speaking]> attrs) rest in
        (r.1, EvSpeak voice_client speaking :: r.2)
      else signal_speaking e speaking attrs rest
  end.

(** Lines 220-225: the fan-out of one packet. *)
Fixpoint fan_out (e : Env) (packet : bytes) (clients : list Z) : list event :=
  match clients with
  | [] => []
  | voice_client :: rest =>
      if is_connected e voice_client then
        EvSend voice_client packet ::
        match send_audio_packet e voice_client packet with
        | Some err => EvPrint err :: fan_out e packet rest
        | None => fan_out e packet rest
        end
      else fan_out e packet rest
  end.

Section VoiceLoop.
Context `{OpusLib encoder_state}.

(** Lines 199-225: one iteration, for a buffer that is not the sentinel. *)
Definition loop_body (e : Env) (buffer : bytes)
    (s : loop_state encoder_state) : loop_state encoder_state * list event :=
  let g := gate (muted e) buffer (consecutive_silence s) in
  let buffer := g.1 in
  let consecutive_silence := g.2 in
  let speaking := speaking_of consecutive_silence in
  let sig := signal_speaking e speaking (_dmb_speaking s) (voice_clients e) in
  if 2 <? consecutive_silence then
    ({| consecutive_silence := consecutive_silence;
        _dmb_speaking := sig.1;
        opus_encoder := opus_encoder s |},
     sig.2)
  else
    let max_data_bytes := len buffer in
    let enc := opus_encode_float (opus_encoder s) buffer
                 (len buffer / 8) max_data_bytes in
    let packet := enc.2 in
    ({| consecutive_silence := consecutive_silence;
        _dmb_speaking := sig.1;
        opus_encoder := enc.1 |},
     sig.2 ++ EvEncode buffer (len buffer / 8) max_data_bytes
           :: fan_out e packet (voice_clients e)).

(** One turn of the [while]: [self.running] as the loop head reads it, what
    [await self.audio_queue.get()] returns, and the surroundings. *)
Record tick := {
  t_running : bool;
  t_item : option bytes;
  t_env : Env;
}.

(** A turn that processes [buffer]. *)
Definition frame (e : Env) (buffer : bytes) : tick :=
  {| t_running := true; t_item := Some buffer; t_env := e |}.

(** The state a fresh loop starts from (line 193; no attribute set yet). *)
Definition loop_init (encoder : encoder_state) : loop_state encoder_state :=
  {| consecutive_silence := 0; _dmb_speaking := ∅; opus_encoder := encoder |}.

(** [_encode_voice_loop] from a given state: the final state and the events
    of each processed frame, in order.  The loop returns when [self.running]
    is false at the head or the item is [None]. *)
Fixpoint encode_voice_loop (ticks : list tick) (s : loop_state encoder_state)
  : loop_state encoder_state * list (list event) :=
  match ticks with
  | [] => (s, [])
  | t :: rest =>
      if t_running t then
        match t_item t with
        | None => (s, [])
        | Some buffer =>
            let r := loop_body (t_env t) buffer s in
            let r' := encode_voice_loop rest r.1 in
            (r'.1, r.2 :: r'.2)
        end
      else (s, [])
  end.

End VoiceLoop.

(** ** Session and stream management: [join_voice], [leave_voice],
    [start_recording] *)

(** The fields of [self] these methods use.  [v] tells whether a view is
    attached ([self.v is not None]); an open stream is identified by the
    device index it was opened on. *)
Record Model {encoder_state : Type} := {
  v : bool;
  joined : list Z;
  input_stream : option nat;
  encoder : encoder_state;
}.
Arguments Model : clear implicits.

(** A method of [Model]: it reads and updates [self], acts on the outside
    world, and returns or raises.  Updates made before an exception stay. *)
Definition M (S A : Type) : Type := S → S * list event * result A.

#[global] Instance M_ret {S} : MRet (M S) := λ A a s, (s, [], Ok a).

#[global] Instance M_bind {S} : MBind (M S) := λ A B f m s,
  match m s with
  | (s1, ev1, Ok a) =>
      match f a s1 with
      | (s2, ev2, r) => (s2, ev1 ++ ev2, r)
      end
  | (s1, ev1, Raise e) => (s1, ev1, Raise e)
  end.

Definition gets {S A} (f : S → A) : M S A := λ s, (s, [], Ok (f s)).
Definition modify {S} (f : S → S) : M S unit := λ s, (f s, [], Ok tt).
Definition emit {S} (ev : event) : M S unit := λ s, (s, [ev], Ok tt).
Definition raise {S A} (e : exn) : M S A := λ s, (s, [], Raise e).

(** An external call that either returns or raises. *)
Definition call {S} (ev : event) (raises : option exn) : M S unit :=
  match raises with
  | None => emit ev
  | Some e => emit ev ;; raise e
  end.

(** [try: body / except Exception as e: handler e] *)
Definition try_except {S A} (body : M S A) (handler : exn → M S A) : M S A :=
  λ s,
  match body s with
  | (s1, ev1, Ok a) => (s1, ev1, Ok a)
  | (s1, ev1, Raise e) =>
      match handler e s1 with
      | (s2, ev2, r) => (s2, ev1 ++ ev2, r)
      end
  end.

(** [if c: body] *)
Definition when {S} (c : bool) (body : M S unit) : M S unit :=
  if c then body else mret tt.

(** [l.remove(x)]: drops the first occurrence, [ValueError] if there is
    none. *)
Fixpoint list_remove (x : Z) (l : list Z) : result (list Z) :=
  match l with
  | [] => Raise ValueError
  | y :: rest =>
      if bool_decide (y = x) then Ok rest
      else match list_remove x rest with
           | Ok rest' => Ok (y :: rest')
           | Raise e => Raise e
           end
  end.

Definition CTL_RESET_STATE : Z := 4028.

Section Sessions.
Context `{OpusLib encoder_state}.

Abbreviation Self := (Model encoder_state).

Definition set_joined (j : list Z) (m : Self) : Self :=
  {| v := v m; joined := j; input_stream := input_stream m;
     encoder := encoder m |}.

Definition set_input_stream (i : option nat) (m : Self) : Self :=
  {| v := v m; joined := joined m; input_stream := i;
     encoder := encoder m |}.

Definition set_encoder (st : encoder_state) (m : Self) : Self :=
  {| v := v m; joined := joined m; input_stream := input_stream m;
     encoder := st |}.

(** [self.joined.remove(channel)] *)
Definition joined_remove (channel : Z) : M Self unit :=
  j ← gets joined;
  match list_remove channel j with
  | Ok j' => modify (set_joined j')
  | Raise e => raise e
  end.

(** [if self.v is not None: self.v.joined_updated()] *)
Definition notify_joined_updated : M Self unit :=
  attached ← gets v;
  when attached (emit EvJoinedUpdated).

(** [join_voice]; [connect_raises] is what [await channel.connect()] does.
    The call is one step: what other coroutines do to [self] while it waits
    for the connect is not part of it. *)
Definition join_voice (channel : Z) (connect_raises : option exn)
  : M Self unit :=
  j ← gets joined;
  if bool_decide (channel ∈ j) then mret tt
  else
    modify (set_joined (j ++ [channel])) ;;
    try_except
      (call (EvConnect channel) connect_raises)
      (λ e, emit (EvPrint e) ;; joined_remove channel) ;;
    st ← gets encoder;
    emit (EvEncoderCtl CTL_RESET_STATE []) ;;
    modify (set_encoder (opus_encoder_ctl st CTL_RESET_STATE [])) ;;
    notify_joined_updated.

(** [leave_voice]; [clients] is [self.discord_client.voice_clients], each
    client with the channel it is on.  [asyncio.wait] does not re-raise what
    a [disconnect()] raises. *)
Definition leave_voice (channel : Z) (clients : list (Z * Z)) : M Self unit :=
  joined_remove channel ;;
  let futures :=
    (λ c : Z * Z, EvDisconnect c.1) <$> filter (λ c, c.2 = channel) clients in
  (λ s, (s, futures, Ok tt)) ;;
  notify_joined_updated.

End Sessions.

(** [sounddevice.query_hostapis()] and [query_devices()] entries. *)
Record HostApi := {
  api_name : string;
  default_input_device : Z;
}.

Record Device := {
  dev_name : string;
  max_input_channels : Z;
  dev_hostapi : nat;
}.

(** The test of line 161. *)
Definition device_matches (hostapis : list HostApi) (hostapi device : string)
    (dev : Device) : bool :=
  bool_decide (dev_name dev = device)
  && (0 <? max_input_channels dev)
  && (dev_hostapi dev <? length hostapis)%nat
  && match hostapis !! dev_hostapi dev with
     | Some api => bool_decide (api_name api = hostapi)
     | None => false
     end.

(** Lines 160-165: the index of the first matching device, counting from
    [idx]; [None] is the [else] branch of the [for]. *)
Fixpoint find_device (hostapis : list HostApi) (hostapi device : string)
    (idx : nat) (devices : list Device) : option nat :=
  match devices with
  | [] => None
  | dev :: rest =>
      if device_matches hostapis hostapi device dev then Some idx
      else find_device hostapis hostapi device (S idx) rest
  end.

Section Recording.
Context {encoder_state : Type}.

(** [start_recording]; [open_raises] and [start_raises] are what the
    [RawInputStream] constructor and its [start()] do.  [stop()] and
    [close()] are taken not to raise. *)
Definition start_recording (hostapi device : string)
    (hostapis : list HostApi) (devices : list Device)
    (open_raises start_raises : option exn) : M (Model encoder_state) unit :=
  old ← gets input_stream;
  match old with
  | Some h =>
      emit (EvStreamStop h) ;; emit (EvStreamClose h) ;;
      modify (set_input_stream None)
  | None => mret tt
  end ;;
  match find_device hostapis hostapi device 0 devices with
  | None => mret tt
  | Some device_id =>
      call (EvStreamOpen device_id) open_raises ;;
      modify (set_input_stream (Some device_id)) ;;
      try_except
        (call (EvStreamStart device_id) start_raises)
        (λ e,
           cur ← gets input_stream;
           match cur with
           | Some h => emit (EvStreamClose h)
           | None => mret tt
           end ;;
           modify (set_input_stream None) ;;
           raise e)
  end.

End Recording.

(** ** Observers used to state the properties *)

(** Every byte of the buffer is zero. *)
Definition all_zero (buffer : bytes) : bool :=
  bool_decide (Forall (λ y, y = x00) buffer).

(** A frame that counts as silence: processed while muted, or all zero. *)
Definition silent_frame (f : Env * bytes) : bool :=
  muted f.1 || all_zero f.2.

(** How many elements at the front of [l] satisfy [p]. *)
Fixpoint leading_count {A} (p : A → bool) (l : list A) : nat :=
  match l with
  | [] => 0
  | x :: rest => if p x then S (leading_count p rest) else 0
  end.

(** How many elements at the back of [l] satisfy [p]. *)
Definition trailing_count {A} (p : A → bool) (l : list A) : nat :=
  leading_count p (reverse l).

(** The speaking-state signals in a trace: who was told what. *)
Fixpoint signals (evs : list event) : list (Z * SpeakingState.t) :=
  match evs with
  | [] => []
  | EvSpeak client speaking :: rest => (client, speaking) :: signals rest
  | _ :: rest => signals rest
  end.

(** The states signalled to one client. *)
Definition signals_to (client : Z) (evs : list event)
  : list SpeakingState.t :=
  (filter (λ cs : Z * SpeakingState.t, cs.1 = client) (signals evs)).*2.

(** The buffers handed to the encoder. *)
Fixpoint encoded (evs : list event) : list bytes :=
  match evs with
  | [] => []
  | EvEncode buffer _ _ :: rest => buffer :: encoded rest
  | _ :: rest => encoded rest
  end.

(** The clients a packet was sent to. *)
Fixpoint send_targets (evs : list event) : list Z :=
  match evs with
  | [] => []
  | EvSend client _ :: rest => client :: send_targets rest
  | _ :: rest => send_targets rest
  end.

(** The three together, for one frame. *)
Definition summary (evs : list event)
  : list (Z * SpeakingState.t) * list bytes * list Z :=
  (signals evs, encoded evs, send_targets evs).

(** The clients of [e] that answer [is_connected()] with true. *)
Definition connected_clients (e : Env) : list Z :=
  filter (λ c, is_connected e c = true) (voice_clients e).

(** The condition under which line 209 signals [client]. *)
Definition signal_due (e : Env) (attrs : gmap Z SpeakingState.t)
    (speaking : SpeakingState.t) (client : Z) : bool :=
  bool_decide (client ∈ voice_clients e)
  && is_connected e client
  && bool_decide (getattr_dmb_speaking attrs client ≠ speaking).

(** The events of a method call, its final state and its outcome. *)
Definition events_of {S A} (r : S * list event * result A) : list event :=
  r.1.2.
Definition state_of {S A} (r : S * list event * result A) : S := r.1.1.
Definition outcome_of {S A} (r : S * list event * result A) : result A :=
  r.2.

(** ** A small codec for worked examples

    Its state counts the frames encoded since the last reset; a packet is
    the first byte of the frame. *)
#[global] Instance example_opus : OpusLib Z := {
  opus_encode_float st buffer _ _ := (st + 1, take 1 buffer);
  opus_encoder_ctl st request _ :=
    if request =? CTL_RESET_STATE then 0 else st;
}.

(** One unmuted session that is connected, with any send behaviour. *)
Definition one_session (client : Z) (send : Z → bytes → option exn) : Env :=
  {| muted := false; voice_clients := [client];
     is_connected := λ _, true; send_audio_packet := send |}.

(** With one connected, unmuted session an iteration depends on the loop
    state only through the counter [k] and the session's last signalled
    state [last]. This is the run of the loop seen through [summary], as a
    function of those two: the summaries of the frames and the final
    counter. *)
Fixpoint one_session_run (client : Z) (k : Z) (last : SpeakingState.t)
    (buffers : list bytes)
  : list (list (Z * SpeakingState.t) * list bytes * list Z) * Z :=
  match buffers with
  | [] => ([], k)
  | buffer :: rest =>
      let k' := if all_zero buffer then k + 1 else 0 in
      let speaking := speaking_of k' in
      let r := one_session_run client k' speaking rest in
      ((if bool_decide (last ≠ speaking) then [(client, speaking)] else [],
        if bool_decide (k' ≤ 2) then [buffer] else [],
        if bool_decide (k' ≤ 2) then [client] else []) :: r.1,
       r.2)
  end.

(** One connected client, id 7, whose sends succeed; not muted. *)
Definition example_env : Env := one_session 7 (λ _ _, None).

(** The same client while it is not connected. *)
Definition example_env_offline : Env := {|
  muted := false;
  voice_clients := [7];
  is_connected := λ _, false;
  send_audio_packet := λ _ _, None;
|}.

Definition example_model : Model Z :=
  {| v := true; joined := [1; 2]; input_stream := None; encoder := 5 |}.

(** One host API and one input device on it. *)
Definition example_hostapis : list HostApi :=
  [{| api_name := "MME"; default_input_device := 0 |}].

Definition example_devices : list Device :=
  [{| dev_name := "Microphone"; max_input_channels := 2; dev_hostapi := 0 |}].

(** ** Further parts of [Model]: devices, bit rate, guild view *)

(** [SoundDevice] and its [__repr__]. *)
Record SoundDevice := {
  sd_name : string;
  is_default : bool;
}.

Definition SoundDevice_repr (d : SoundDevice) : string :=
  if is_default d then "* " +:+ sd_name d else "  " +:+ sd_name d.

(** [list_sound_hostapis] *)
Definition list_sound_hostapis (hostapis : list HostApi) : list string :=
  api_name <$> hostapis.

(** Lines 102-107: the first host API of that name; [None] is the [else]
    branch of the [for]. *)
Fixpoint find_hostapi (hostapi : string) (hostapis : list HostApi)
  : option HostApi :=
  match hostapis with
  | [] => None
  | api :: rest =>
      if bool_decide (api_name api = hostapi) then Some api
      else find_hostapi hostapi rest
  end.

(** The filter of line 109. *)
Definition is_input_of (hostapis : list HostApi) (hostapi : string)
    (dev : Device) : bool :=
  (0 <? max_input_channels dev)
  && (dev_hostapi dev <? length hostapis)%nat
  && match hostapis !! dev_hostapi dev with
     | Some api => bool_decide (api_name api = hostapi)
     | None => false
     end.

(** The comprehension of line 109 over [enumerate(devices)], counting from
    [idx]. *)
Fixpoint enumerate_inputs (hostapis : list HostApi) (hostapi : string)
    (default_input_id : Z) (idx : nat) (devices : list Device)
  : list SoundDevice :=
  match devices with
  | [] => []
  | dev :: rest =>
      if is_input_of hostapis hostapi dev then
        {| sd_name := dev_name dev;
           is_default := Z.of_nat idx =? default_input_id |}
        :: enumerate_inputs hostapis hostapi default_input_id (S idx) rest
      else enumerate_inputs hostapis hostapi default_input_id (S idx) rest
  end.

(** [list_sound_input_devices] *)
Definition list_sound_input_devices (hostapi : string)
    (hostapis : list HostApi) (devices : list Device) : list SoundDevice :=
  match find_hostapi hostapi hostapis with
  | None => []
  | Some api =>
      enumerate_inputs hostapis hostapi (default_input_device api) 0 devices
  end.

(** [discord.opus.CTL_SET_BITRATE] *)
Definition CTL_SET_BITRATE : Z := 4002.

Section Bitrate.
Context `{OpusLib encoder_state}.

(** [set_bitrate] *)
Definition set_bitrate (kbps : Z) : M (Model encoder_state) unit :=
  let kbps := Z.min 512 (Z.max 12 kbps) in
  st ← gets encoder;
  emit (EvEncoderCtl CTL_SET_BITRATE [kbps * 1000]) ;;
  modify (set_encoder (opus_encoder_ctl st CTL_SET_BITRATE [kbps * 1000])).

End Bitrate.

(** A guild channel as [fetch_channels] returns it; [ch_is_voice] is
    [isinstance(i, discord.VoiceChannel)]. *)
Record Channel := {
  ch_id : Z;
  ch_is_voice : bool;
}.

(** The fields of [self] that [view_guild] uses; [gv_v] tells whether a view
    is attached. *)
Record GuildView := {
  channels : list Channel;
  current_viewing_guild : option Z;
  gv_v : bool;
}.

(** [view_guild] up to its [await]: lines 112-116.  For [None] this is the
    whole call. *)
Definition view_guild_request (guild : option Z) (g : GuildView) : GuildView :=
  {| channels := []; current_viewing_guild := guild; gv_v := gv_v g |}.

(** [view_guild] after its [await], for the guild it was called with and
    what [fetch_channels] returned: lines 117-121.  The flag tells whether
    [self.v.channels_updated()] was called. *)
Definition view_guild_response (guild : Z) (fetched : list Channel)
    (g : GuildView) : GuildView * bool :=
  if bool_decide (current_viewing_guild g ≠ Some guild) then (g, false)
  else
    ({| channels := filter (λ i, ch_is_voice i = true) fetched;
        current_viewing_guild := current_viewing_guild g;
        gv_v := gv_v g |},
     gv_v g).

(** The steps of any number of [view_guild] calls, as the event loop
    interleaves them. *)
Inductive guild_step :=
| Request (guild : option Z)
| Response (guild : Z) (fetched : list Channel).

Definition guild_view_step (g : GuildView) (st : guild_step) : GuildView :=
  match st with
  | Request guild => view_guild_request guild g
  | Response guild fetched => (view_guild_response guild fetched g).1
  end.

(** The state of [__init__]: no channels, no guild viewed. *)
Definition guild_view_init (attached : bool) : GuildView :=
  {| channels := []; current_viewing_guild := None; gv_v := attached |}.

(** ** More observers *)

(** The packets sent, with their targets. *)
Fixpoint sends (evs : list event) : list (Z * bytes) :=
  match evs with
  | [] => []
  | EvSend client packet :: rest => (client, packet) :: sends rest
  | _ :: rest => sends rest
  end.

(** The exceptions printed. *)
Fixpoint prints (evs : list event) : list exn :=
  match evs with
  | [] => []
  | EvPrint e :: rest => e :: prints rest
  | _ :: rest => prints rest
  end.

(** No element of [l] equals the one before it, [prev] being before the
    first. *)
Fixpoint no_repeat_from {A} (prev : A) (l : list A) : Prop :=
  match l with
  | [] => True
  | x :: rest => x ≠ prev ∧ no_repeat_from x rest
  end.

(** The frames a run of hand-off operations captured, and the ones it
    delivered to the consumer. *)
Definition produced (ops : list handoff_op) : list bytes :=
  omap (λ op, match op with Produce indata => Some indata | Consume => None end)
    ops.

Definition delivered (obs : list handoff_obs) : list (option bytes) :=
  omap (λ o, match o with Delivered item => Some item | _ => None end) obs.

(** A turn on which the loop returns. *)
Definition stops (t : tick) : bool :=
  negb (t_running t) || bool_decide (t_item t = None).

(** ** More worked examples *)

(** Client 7 connected, with the mute flag set. *)
Definition example_env_muted : Env := {|
  muted := true;
  voice_clients := [7];
  is_connected := λ _, true;
  send_audio_packet := λ _ _, None;
|}.

(** The turn on which the loop gets the [None] sentinel. *)
Definition example_stop : tick :=
  {| t_running := true; t_item := None; t_env := example_env |}.

(** A stretch of silence: an all-zero frame, a muted frame, an all-zero
    frame. *)
Definition example_silence : list (Env * bytes) :=
  [(example_env, [x00]); (example_env_muted, [x05]); (example_env, [x00; x00])].

Definition example_sound_device : SoundDevice :=
  {| sd_name := "Microphone"; is_default := true |}.

Definition example_fetched : list Channel :=
  [{| ch_id := 100; ch_is_voice := true |};
   {| ch_id := 101; ch_is_voice := false |}].

(** * Properties *)

(** ** The gate and the silence counter *)

Lemma bytes_count_le (x : byte) (buffer : bytes) :
  bytes_count x buffer ≤ len buffer.
Proof.
  unfold bytes_count, len. pose proof (length_filter (λ y, y = x) buffer). lia.
Qed.

Lemma bytes_count_eq_len (buffer : bytes) :
  bytes_count x00 buffer = len buffer ↔ Forall (λ y, y = x00) buffer.
Proof.
  induction buffer as [|b buffer IH].
  - split; [constructor | reflexivity].
  - pose proof (bytes_count_le x00 buffer) as Hle.
    unfold bytes_count, len in *. rewrite filter_cons.
    destruct (decide (b = x00)) as [->|Hne]; simpl.
    + rewrite Forall_cons. split.
      * intros Heq. split; [done|]. apply IH. lia.
      * intros [_ Hall]. apply IH in Hall. lia.
    + split; [lia|]. intros Hall. apply Forall_cons in Hall as [? _]. done.
Qed.

Lemma count_test_all_zero (buffer : bytes) :
  (bytes_count x00 buffer =? len buffer) = all_zero buffer.
Proof.
  unfold all_zero.
  destruct (bytes_count x00 buffer =? len buffer) eqn:Heq.
  - apply Z.eqb_eq, bytes_count_eq_len in Heq. by rewrite bool_decide_eq_true_2.
  - apply Z.eqb_neq in Heq. rewrite bool_decide_eq_false_2; [done|].
    intros Hall. by apply Heq, bytes_count_eq_len.
Qed.

Lemma gate_counter (e : Env) (buffer : bytes) (k : Z) :
  (gate (muted e) buffer k).2 = if silent_frame (e, buffer) then k + 1 else 0.
Proof.
  unfold gate, silent_frame. simpl. rewrite count_test_all_zero.
  destruct (muted e); [done|]. simpl. by destruct (all_zero buffer).
Qed.

Lemma gate_buffer (e : Env) (buffer : bytes) (k : Z) :
  (gate (muted e) buffer k).1
  = if muted e then zero_bytes (length buffer) else buffer.
Proof.
  unfold gate. destruct (muted e); [done|].
  by destruct (bytes_count x00 buffer =? len buffer).
Qed.

Section VoiceLoopFacts.
Context `{OpusLib encoder_state}.
Implicit Types (s : loop_state encoder_state) (e : Env) (buffer : bytes).

Lemma loop_body_counter e buffer s :
  consecutive_silence (loop_body e buffer s).1
  = (gate (muted e) buffer (consecutive_silence s)).2.
Proof. unfold loop_body. by case_match. Qed.

Lemma loop_body_attrs e buffer s :
  _dmb_speaking (loop_body e buffer s).1
  = (signal_speaking e
       (speaking_of (consecutive_silence (loop_body e buffer s).1))
       (_dmb_speaking s) (voice_clients e)).1.
Proof. rewrite loop_body_counter. unfold loop_body. by case_match. Qed.

(** All turns built with [frame] are processed, one after the other. *)
Lemma encode_voice_loop_frames_snoc
    (frames : list (Env * bytes)) (f : Env * bytes) s :
  encode_voice_loop ((λ f, frame f.1 f.2) <$> (frames ++ [f])) s
  = let r := encode_voice_loop ((λ f, frame f.1 f.2) <$> frames) s in
    let r' := loop_body f.1 f.2 r.1 in
    (r'.1, r.2 ++ [r'.2]).
Proof.
  revert s. induction frames as [|g frames IH]; intros s; [done|].
  simpl. rewrite IH. done.
Qed.

Lemma encode_voice_loop_frames_length (frames : list (Env * bytes)) s :
  length (encode_voice_loop ((λ f, frame f.1 f.2) <$> frames) s).2
  = length frames.
Proof.
  revert s. induction frames as [|g frames IH]; intros s; [done|].
  simpl. by rewrite IH.
Qed.

(** The counter never goes below zero. *)
Lemma loop_body_counter_nonneg e buffer s :
  0 ≤ consecutive_silence s → 0 ≤ consecutive_silence (loop_body e buffer s).1.
Proof.
  intros Hs. rewrite loop_body_counter, gate_counter. case_match; lia.
Qed.

Lemma encode_voice_loop_counter_nonneg (ticks : list tick) s :
  0 ≤ consecutive_silence s →
  0 ≤ consecutive_silence (encode_voice_loop ticks s).1.
Proof.
  revert s. induction ticks as [|t ticks IH]; intros s Hs; [done|].
  simpl. destruct (t_running t); [|done]. destruct (t_item t); [|done].
  simpl. by apply IH, loop_body_counter_nonneg.
Qed.

(** C2. After any sequence of processed frames, started from the initial
    state, the counter is the number of trailing frames that were muted or
    all zero; each such frame adds exactly one to it, and every other frame
    sets it to zero. All frames of the sequence are processed. *)
Theorem consecutive_silence_counts_trailing_silent_frames :
  ∀ (encoder0 : encoder_state) (frames : list (Env * bytes)),
    let r := encode_voice_loop ((λ f, frame f.1 f.2) <$> frames)
               (loop_init encoder0) in
    length r.2 = length frames
    ∧ consecutive_silence r.1 = Z.of_nat (trailing_count silent_frame frames)
    ∧ ∀ e buffer s,
        consecutive_silence (loop_body e buffer s).1
        = if muted e || all_zero buffer then consecutive_silence s + 1 else 0.
Proof.
  intros encoder0 frames r. subst r. split; [|split].
  - apply encode_voice_loop_frames_length.
  - induction frames as [|f frames IH] using rev_ind; [done|].
    rewrite encode_voice_loop_frames_snoc. simpl.
    rewrite loop_body_counter, gate_counter, IH.
    unfold trailing_count. rewrite reverse_snoc. simpl.
    destruct f as [e buffer]. simpl. case_match; lia.
  - intros e buffer s. by rewrite loop_body_counter, gate_counter.
Qed.

End VoiceLoopFacts.

(** ** Signalling and fan-out *)

Lemma getattr_insert_eq (attrs : gmap Z SpeakingState.t) c sp :
  getattr_dmb_speaking (<[c := sp]> attrs) c = sp.
Proof. unfold getattr_dmb_speaking. by rewrite lookup_insert_eq. Qed.

Lemma getattr_insert_ne (attrs : gmap Z SpeakingState.t) c c' sp :
  c ≠ c' →
  getattr_dmb_speaking (<[c := sp]> attrs) c' = getattr_dmb_speaking attrs c'.
Proof. intros. unfold getattr_dmb_speaking. by rewrite lookup_insert_ne. Qed.

Lemma signals_to_cons_eq c sp evs :
  signals_to c (EvSpeak c sp :: evs) = sp :: signals_to c evs.
Proof. unfold signals_to. simpl. rewrite filter_cons_True; done. Qed.

Lemma signals_to_cons_ne c c' sp evs :
  c' ≠ c → signals_to c (EvSpeak c' sp :: evs) = signals_to c evs.
Proof. intros. unfold signals_to. simpl. rewrite filter_cons_False; done. Qed.

Lemma elem_of_signals_to c sp evs :
  sp ∈ signals_to c evs ↔ (c, sp) ∈ signals evs.
Proof.
  unfold signals_to. rewrite list_elem_of_fmap. split.
  - intros [[c' sp'] [Heq Hin]]. apply list_elem_of_filter in Hin as [Hc Hin].
    simpl in *. by subst.
  - intros Hin. exists (c, sp). split; [done|].
    apply list_elem_of_filter. done.
Qed.

(** What the signalling loop does for one client id [c], from any store:
    at most one signal, and exactly when [c] is listed, connected and its
    attribute differs. *)
Lemma signal_speaking_client e sp c clients :
  ∀ attrs,
    signals_to c (signal_speaking e sp attrs clients).2
    = (if bool_decide (c ∈ clients) && is_connected e c
          && bool_decide (getattr_dmb_speaking attrs c ≠ sp)
       then [sp] else [])
    ∧ (signal_speaking e sp attrs clients).1 !! c
      = (if bool_decide (c ∈ clients) && is_connected e c
            && bool_decide (getattr_dmb_speaking attrs c ≠ sp)
         then Some sp else attrs !! c).
Proof.
  induction clients as [|vc clients IH]; intros attrs; simpl; [done|].
  destruct (decide (vc = c)) as [->|Hne].
  - rewrite (bool_decide_eq_true_2 (c ∈ c :: clients))
      by apply list_elem_of_here.
    simpl.
    destruct (is_connected e c) eqn:Hconn; simpl.
    + destruct (bool_decide (getattr_dmb_speaking attrs c ≠ sp)) eqn:Hdiff;
        simpl.
      * destruct (IH (<[c := sp]> attrs)) as [IH1 IH2].
        rewrite getattr_insert_eq in IH1, IH2.
        rewrite (bool_decide_eq_false_2 (sp ≠ sp)) in IH1, IH2
          by (intros Hc; by apply Hc).
        rewrite andb_false_r in IH1, IH2.
        rewrite signals_to_cons_eq, IH1, IH2, lookup_insert_eq. done.
      * destruct (IH attrs) as [IH1 IH2].
        rewrite Hdiff, andb_false_r in IH1, IH2. done.
    + destruct (IH attrs) as [IH1 IH2].
      rewrite andb_false_r in IH1, IH2. done.
  - assert (bool_decide (c ∈ vc :: clients) = bool_decide (c ∈ clients)) as ->.
    { apply bool_decide_ext. rewrite elem_of_cons. split; [intros [?|?]; [congruence|done] | by right]. }
    destruct (is_connected e vc
              && bool_decide (getattr_dmb_speaking attrs vc ≠ sp)); simpl.
    + destruct (IH (<[vc := sp]> attrs)) as [IH1 IH2].
      rewrite getattr_insert_ne in IH1, IH2 by done.
      rewrite lookup_insert_ne in IH2 by done.
      by rewrite signals_to_cons_ne.
    + apply IH.
Qed.

Lemma signals_app evs evs' : signals (evs ++ evs') = signals evs ++ signals evs'.
Proof.
  induction evs as [|ev evs IH]; [done|]. destruct ev; simpl; by rewrite ?IH.
Qed.

Lemma encoded_app evs evs' : encoded (evs ++ evs') = encoded evs ++ encoded evs'.
Proof.
  induction evs as [|ev evs IH]; [done|]. destruct ev; simpl; by rewrite ?IH.
Qed.

Lemma send_targets_app evs evs' :
  send_targets (evs ++ evs') = send_targets evs ++ send_targets evs'.
Proof.
  induction evs as [|ev evs IH]; [done|]. destruct ev; simpl; by rewrite ?IH.
Qed.

Lemma signal_speaking_only_signals e sp clients :
  ∀ attrs,
    encoded (signal_speaking e sp attrs clients).2 = []
    ∧ send_targets (signal_speaking e sp attrs clients).2 = [].
Proof.
  induction clients as [|vc clients IH]; intros attrs; simpl; [done|].
  case_match; simpl; apply IH.
Qed.

Lemma fan_out_summary e packet clients :
  signals (fan_out e packet clients) = []
  ∧ encoded (fan_out e packet clients) = []
  ∧ send_targets (fan_out e packet clients)
    = filter (λ c, is_connected e c = true) clients.
Proof.
  induction clients as [|vc clients (IH1 & IH2 & IH3)]; simpl; [done|].
  rewrite filter_cons.
  destruct (is_connected e vc) eqn:Hconn; simpl.
  - destruct (send_audio_packet e vc packet); simpl; rewrite IH1, IH2, IH3;
      by destruct (decide (true = true)).
  - rewrite IH1, IH2, IH3. by destruct (decide (false = true)).
Qed.

Section LoopBodyFacts.
Context `{OpusLib encoder_state}.
Implicit Types (s : loop_state encoder_state) (e : Env) (buffer : bytes).

(** The trace of one iteration, seen through the observers. *)
Lemma loop_body_summary e buffer s :
  let r := loop_body e buffer s in
  let k := consecutive_silence r.1 in
  signals r.2
  = signals (signal_speaking e (speaking_of k) (_dmb_speaking s)
               (voice_clients e)).2
  ∧ encoded r.2
    = (if bool_decide (k ≤ 2)
       then [(gate (muted e) buffer (consecutive_silence s)).1] else [])
  ∧ send_targets r.2
    = (if bool_decide (k ≤ 2) then connected_clients e else []).
Proof.
  intros r k. subst r k. rewrite loop_body_counter. unfold loop_body.
  set (g := gate (muted e) buffer (consecutive_silence s)).
  set (sig := signal_speaking e (speaking_of g.2) (_dmb_speaking s)
                (voice_clients e)).
  destruct (signal_speaking_only_signals e (speaking_of g.2) (voice_clients e)
              (_dmb_speaking s)) as [Henc Hsend].
  fold sig in Henc, Hsend.
  destruct (2 <? g.2) eqn:Hk; simpl.
  - apply Z.ltb_lt in Hk. rewrite bool_decide_eq_false_2 by lia. done.
  - apply Z.ltb_ge in Hk. rewrite bool_decide_eq_true_2 by lia.
    rewrite signals_app, encoded_app, send_targets_app, Henc, Hsend. simpl.
    destruct (fan_out_summary e
      (opus_encode_float (opus_encoder s) g.1 (len g.1 / 8) (len g.1)).2
      (voice_clients e)) as (-> & -> & ->).
    by rewrite app_nil_r.
Qed.

Lemma loop_body_signals_to e buffer s client :
  let r := loop_body e buffer s in
  let speaking := speaking_of (consecutive_silence r.1) in
  signals_to client r.2
  = (if signal_due e (_dmb_speaking s) speaking client then [speaking] else [])
  ∧ _dmb_speaking r.1 !! client
    = (if signal_due e (_dmb_speaking s) speaking client
       then Some speaking else _dmb_speaking s !! client).
Proof.
  intros r speaking. subst r speaking.
  destruct (loop_body_summary e buffer s) as (Hsig & _ & _).
  unfold signals_to. rewrite Hsig, loop_body_attrs.
  apply (signal_speaking_client e _ client (voice_clients e) (_dmb_speaking s)).
Qed.

End LoopBodyFacts.

Section VoiceLoopClaims.
Context `{OpusLib encoder_state}.
Implicit Types (s : loop_state encoder_state) (e : Env) (buffer : bytes).

(** C3. For every processed frame of a run from the initial state, the
    speaking state computed from the updated counter is [voice] exactly when
    the counter is 0 or 1 and [none] exactly when it is at least 2; it is the
    state every signal of that frame carries and the state every connected
    client is left with. *)
Theorem speaking_iff_counter_at_most_one :
  ∀ (encoder0 : encoder_state) (frames : list (Env * bytes)) e buffer,
    let s := (encode_voice_loop ((λ f, frame f.1 f.2) <$> frames)
                (loop_init encoder0)).1 in
    let r := loop_body e buffer s in
    let k := consecutive_silence r.1 in
    (speaking_of k = SpeakingState.voice ↔ k = 0 ∨ k = 1)
    ∧ (speaking_of k = SpeakingState.none ↔ 2 ≤ k)
    ∧ Forall (λ cs : Z * SpeakingState.t, cs.2 = speaking_of k) (signals r.2)
    ∧ Forall (λ c, getattr_dmb_speaking (_dmb_speaking r.1) c = speaking_of k)
        (connected_clients e).
Proof.
  intros encoder0 frames e buffer s r k.
  assert (0 ≤ k) as Hk.
  { apply loop_body_counter_nonneg, encode_voice_loop_counter_nonneg. done. }
  split; [|split; [|split]].
  - unfold speaking_of. destruct (k <=? 1) eqn:Hle.
    + apply Z.leb_le in Hle. split; [lia|done].
    + apply Z.leb_gt in Hle. split; [done|lia].
  - unfold speaking_of. destruct (k <=? 1) eqn:Hle.
    + apply Z.leb_le in Hle. split; [done|lia].
    + apply Z.leb_gt in Hle. split; [lia|done].
  - apply Forall_forall. intros [c st] Hin. simpl.
    apply elem_of_signals_to in Hin.
    destruct (loop_body_signals_to e buffer s c) as [Hsig _].
    fold r k in Hsig. rewrite Hsig in Hin.
    destruct (signal_due e (_dmb_speaking s) (speaking_of k) c).
    + by apply list_elem_of_singleton in Hin.
    + by apply not_elem_of_nil in Hin.
  - apply Forall_forall. intros c Hin.
    apply list_elem_of_filter in Hin as [Hconn Hin].
    destruct (loop_body_signals_to e buffer s c) as [_ Hattr].
    fold r k in Hattr. unfold getattr_dmb_speaking at 1. rewrite Hattr.
    unfold signal_due. rewrite bool_decide_eq_true_2, Hconn by done. simpl.
    destruct (bool_decide_reflect
                (getattr_dmb_speaking (_dmb_speaking s) c ≠ speaking_of k))
      as [Hne|Heq]; [done|].
    apply dec_stable in Heq. done.
Qed.

(** C4. In every iteration the encoder is called, once and on the gated
    buffer, exactly when the updated counter is at most 2, and the packet is
    sent to a client exactly when that client is connected and the counter is
    at most 2. When the counter exceeds 2 there is no encode, no send, and
    the encoder is left as it was. *)
Theorem transmit_iff_counter_at_most_two :
  ∀ e buffer s,
    let r := loop_body e buffer s in
    let k := consecutive_silence r.1 in
    encoded r.2
    = (if bool_decide (k ≤ 2)
       then [(gate (muted e) buffer (consecutive_silence s)).1] else [])
    ∧ send_targets r.2 = (if bool_decide (k ≤ 2) then connected_clients e else [])
    ∧ (length (encoded r.2) = 1%nat ↔ k ≤ 2)
    ∧ (∀ client,
         client ∈ send_targets r.2 ↔ client ∈ connected_clients e ∧ k ≤ 2)
    ∧ (encoded r.2 = [] ∧ send_targets r.2 = []
       ∧ opus_encoder r.1 = opus_encoder s ↔ 2 < k).
Proof.
  intros e buffer s r k.
  destruct (loop_body_summary e buffer s) as (_ & Henc & Hsend).
  fold r k in Henc, Hsend.
  assert (2 < k → opus_encoder r.1 = opus_encoder s) as Hkeep.
  { intros Hk. subst k r. rewrite loop_body_counter in Hk. unfold loop_body.
    apply Z.ltb_lt in Hk. by rewrite Hk. }
  rewrite Henc, Hsend. split; [done|]. split; [done|].
  destruct (bool_decide_reflect (k ≤ 2)) as [Hle|Hgt].
  - split; [done|]. split.
    + intros client. split; [by intros ?|by intros [? _]].
    + split; [by intros [? _]|lia].
  - split; [simpl; split; [done|lia]|]. split.
    + intros client. split; [by intros ?%not_elem_of_nil|by intros [_ ?]].
    + split; [lia|]. intros Hk. split; [done|]. split; [done|]. by apply Hkeep.
Qed.

(** The signalling loop for any client id, listed or not, connected or not:
    the client is signalled exactly when it is in the client list, connected,
    and its last signalled state (default [none]) differs from the newly
    computed one; there is then exactly one signal, carrying the new state,
    and the stored state becomes the new state. Otherwise there is no signal
    and the stored state is untouched. *)
Lemma signal_iff_connected_and_changed :
  ∀ e buffer s client,
    let r := loop_body e buffer s in
    let speaking := speaking_of (consecutive_silence r.1) in
    let last := getattr_dmb_speaking (_dmb_speaking s) client in
    let due := signal_due e (_dmb_speaking s) speaking client in
    (due = true ↔
       client ∈ voice_clients e ∧ is_connected e client = true
       ∧ last ≠ speaking)
    ∧ signals_to client r.2 = (if due then [speaking] else [])
    ∧ _dmb_speaking r.1 !! client
      = (if due then Some speaking else _dmb_speaking s !! client).
Proof.
  intros e buffer s client r speaking last due. split.
  - subst due. unfold signal_due.
    rewrite !andb_true_iff, !bool_decide_eq_true. tauto.
  - apply loop_body_signals_to.
Qed.

(** C5. For every session, that is every connected client of the client
    list, and every processed frame: a speaking-state signal is emitted to
    the session if and only if the newly computed state differs from the
    session's last signalled state, which is [none] for a session never
    signalled. On those frames there is exactly one signal, it carries the
    new state, and the stored state becomes the new state; on the other
    frames there is no signal and the stored state is untouched. Either way
    the session ends the frame with the computed state stored. *)
Theorem signal_iff_state_differs :
  ∀ e buffer s client,
    client ∈ connected_clients e →
    let r := loop_body e buffer s in
    let speaking := speaking_of (consecutive_silence r.1) in
    let last := getattr_dmb_speaking (_dmb_speaking s) client in
    ((∃ st, (client, st) ∈ signals r.2) ↔ last ≠ speaking)
    ∧ signals_to client r.2
      = (if bool_decide (last ≠ speaking) then [speaking] else [])
    ∧ _dmb_speaking r.1 !! client
      = (if bool_decide (last ≠ speaking)
         then Some speaking else _dmb_speaking s !! client)
    ∧ getattr_dmb_speaking (_dmb_speaking r.1) client = speaking.
Proof.
  intros e buffer s client Hsession r speaking last.
  apply list_elem_of_filter in Hsession as [Hconn Hlisted].
  destruct (loop_body_signals_to e buffer s client) as [Hsig Hattr].
  fold r speaking in Hsig, Hattr.
  assert (signal_due e (_dmb_speaking s) speaking client
          = bool_decide (last ≠ speaking)) as Hdue.
  { unfold signal_due. by rewrite bool_decide_eq_true_2, Hconn. }
  rewrite Hdue in Hsig, Hattr.
  split; [|split; [done|split; [done|]]].
  - split.
    + intros [st Hst]. apply elem_of_signals_to in Hst. rewrite Hsig in Hst.
      destruct (bool_decide_reflect (last ≠ speaking)) as [Hne|Heq]; [done|].
      by apply not_elem_of_nil in Hst.
    + intros Hne. exists speaking. apply elem_of_signals_to. rewrite Hsig.
      rewrite bool_decide_eq_true_2 by done. apply list_elem_of_here.
  - unfold getattr_dmb_speaking at 1. rewrite Hattr.
    destruct (bool_decide_reflect (last ≠ speaking)) as [Hne|Heq]; [done|].
    by apply dec_stable in Heq.
Qed.

End VoiceLoopClaims.

(** A client that is in the client list but not connected is not a session
    of the loop: it is left alone, not signalled and not updated, even when
    the newly computed state, [voice], differs from the default [none]. *)
Lemma signal_withheld_from_unconnected_client :
  let s := loop_init (0 : Z) in
  let r := loop_body example_env_offline [x01] s in
  let speaking := speaking_of (consecutive_silence r.1) in
  7 ∈ voice_clients example_env_offline
  ∧ getattr_dmb_speaking (_dmb_speaking s) 7 ≠ speaking
  ∧ signals r.2 = []
  ∧ _dmb_speaking r.1 !! 7 = None.
Proof.
  split; [apply list_elem_of_here|]. split; [by vm_compute|].
  split; by vm_compute.
Qed.

(** C5 on the example: client 7, connected and never signalled, meets a
    frame that is not zero, and is told [voice] once. *)
Lemma signal_iff_state_differs_witness :
  7 ∈ connected_clients example_env
  ∧ let r := loop_body example_env [x01] (loop_init (0 : Z)) in
    let speaking := speaking_of (consecutive_silence r.1) in
    let last := getattr_dmb_speaking
                  (_dmb_speaking (loop_init (0 : Z))) 7 in
    ((∃ st, (7, st) ∈ signals r.2) ↔ last ≠ speaking)
    ∧ signals_to 7 r.2
      = (if bool_decide (last ≠ speaking) then [speaking] else [])
    ∧ _dmb_speaking r.1 !! 7
      = (if bool_decide (last ≠ speaking)
         then Some speaking else _dmb_speaking (loop_init (0 : Z)) !! 7)
    ∧ getattr_dmb_speaking (_dmb_speaking r.1) 7 = speaking.
Proof.
  assert (7 ∈ connected_clients example_env) as Hsession
    by (refine (bool_decide_unpack _ _); vm_compute; exact I).
  split; [exact Hsession|].
  exact (signal_iff_state_differs example_env [x01] (loop_init (0 : Z)) 7
           Hsession).
Defined.

(** ** The scenario of five loud and four silent frames *)

Section Scenario.
Context `{OpusLib encoder_state}.
Implicit Types (s : loop_state encoder_state) (buffer : bytes).

Lemma encode_voice_loop_frame e buffer (ticks : list tick) s :
  encode_voice_loop (frame e buffer :: ticks) s
  = ((encode_voice_loop ticks (loop_body e buffer s).1).1,
     (loop_body e buffer s).2
       :: (encode_voice_loop ticks (loop_body e buffer s).1).2).
Proof. done. Qed.

(** One iteration with a single connected, unmuted session, in terms of the
    counter and of the session's last signalled state. *)
Lemma one_session_step client send buffer s :
  let r := loop_body (one_session client send) buffer s in
  let k := if all_zero buffer then consecutive_silence s + 1 else 0 in
  consecutive_silence r.1 = k
  ∧ getattr_dmb_speaking (_dmb_speaking r.1) client = speaking_of k
  ∧ summary r.2
    = (if bool_decide
            (getattr_dmb_speaking (_dmb_speaking s) client ≠ speaking_of k)
       then [(client, speaking_of k)] else [],
       if bool_decide (k ≤ 2) then [buffer] else [],
       if bool_decide (k ≤ 2) then [client] else []).
Proof.
  intros r k.
  assert (consecutive_silence r.1 = k) as Hk.
  { subst r k. by rewrite loop_body_counter, gate_counter. }
  split; [done|].
  destruct (loop_body_summary (one_session client send) buffer s)
    as (Hsig & Henc & Hsend).
  fold r in Hsig, Henc, Hsend. rewrite Hk in Hsig, Henc, Hsend.
  rewrite gate_buffer in Henc. simpl in Hsig, Henc.
  split.
  - subst r. unfold getattr_dmb_speaking at 1. rewrite loop_body_attrs, Hk.
    simpl.
    destruct (bool_decide_reflect
                (getattr_dmb_speaking (_dmb_speaking s) client ≠ speaking_of k))
      as [Hne|Heq]; simpl.
    + by rewrite lookup_insert_eq.
    + by apply dec_stable in Heq.
  - unfold summary. rewrite Hsig, Henc, Hsend.
    unfold connected_clients. simpl. rewrite filter_cons_True by done.
    by destruct (bool_decide
        (getattr_dmb_speaking (_dmb_speaking s) client ≠ speaking_of k)).
Qed.

(** The loop with one session follows [one_session_run]. *)
Lemma encode_voice_loop_one_session client send (buffers : list bytes) :
  ∀ s,
    let r := encode_voice_loop (frame (one_session client send) <$> buffers) s in
    let r' := one_session_run client (consecutive_silence s)
                (getattr_dmb_speaking (_dmb_speaking s) client) buffers in
    summary <$> r.2 = r'.1 ∧ consecutive_silence r.1 = r'.2.
Proof.
  induction buffers as [|buffer buffers IH]; intros s; [done|].
  rewrite fmap_cons, encode_voice_loop_frame.
  destruct (one_session_step client send buffer s) as (Hk & Hlast & Hsum).
  destruct (IH (loop_body (one_session client send) buffer s).1) as [IH1 IH2].
  rewrite Hk, Hlast in IH1, IH2.
  cbn [fst snd one_session_run]. rewrite fmap_cons, Hsum, IH1, IH2. done.
Qed.

(** C1. From the initial state, with one connected session never signalled
    before and the mute flag off, five frames that are not all zero followed
    by four all-zero frames give: one [voice] signal, in frame 1; an encode
    and a send in each of frames 1 to 7; one [none] signal, in frame 7; and
    nothing at all in frames 8 and 9. The counter ends at 4. *)
Theorem scenario_five_loud_four_silent :
  ∀ (encoder0 : encoder_state) (client : Z) (send : Z → bytes → option exn)
    (l1 l2 l3 l4 l5 q1 q2 q3 q4 : bytes),
    Forall (λ b, all_zero b = false) [l1; l2; l3; l4; l5] →
    Forall (λ b, all_zero b = true) [q1; q2; q3; q4] →
    let e := one_session client send in
    let r := encode_voice_loop
               (frame e <$> [l1; l2; l3; l4; l5; q1; q2; q3; q4])
               (loop_init encoder0) in
    summary <$> r.2
    = [ ([(client, SpeakingState.voice)], [l1], [client]);
        ([], [l2], [client]);
        ([], [l3], [client]);
        ([], [l4], [client]);
        ([], [l5], [client]);
        ([], [q1], [client]);
        ([(client, SpeakingState.none)], [q2], [client]);
        ([], [], []);
        ([], [], []) ]
    ∧ consecutive_silence r.1 = 4.
Proof.
  intros encoder0 client send l1 l2 l3 l4 l5 q1 q2 q3 q4 Hloud Hquiet e r.
  repeat match goal with
         | Hall : Forall _ (_ :: _) |- _ =>
             apply Forall_cons in Hall as [? Hall]
         end.
  subst r e.
  destruct (encode_voice_loop_one_session client send
              [l1; l2; l3; l4; l5; q1; q2; q3; q4] (loop_init encoder0))
    as [Hsum Hk].
  rewrite Hsum, Hk. clear Hsum Hk.
  change (getattr_dmb_speaking (_dmb_speaking (loop_init encoder0)) client)
    with SpeakingState.none.
  change (consecutive_silence (loop_init encoder0)) with 0.
  cbn [one_session_run fst snd].
  repeat match goal with
         | Hz : all_zero _ = _ |- _ => rewrite Hz; clear Hz
         end.
  done.
Qed.

End Scenario.

(** C1 on concrete frames: five one-byte frames that are not zero, then four
    all-zero frames, for client 7. *)
Lemma scenario_five_loud_four_silent_witness :
  Forall (λ b, all_zero b = false) [[x01]; [x02]; [x03]; [x04]; [x05]]
  ∧ Forall (λ b, all_zero b = true) [[x00]; [x00; x00]; [x00]; [x00]]
  ∧ let r := encode_voice_loop
               (frame (one_session 7 (λ _ _, None))
                  <$> [[x01]; [x02]; [x03]; [x04]; [x05];
                       [x00]; [x00; x00]; [x00]; [x00]])
               (loop_init (0 : Z)) in
    summary <$> r.2
    = [ ([(7, SpeakingState.voice)], [[x01]], [7]);
        ([], [[x02]], [7]);
        ([], [[x03]], [7]);
        ([], [[x04]], [7]);
        ([], [[x05]], [7]);
        ([], [[x00]], [7]);
        ([(7, SpeakingState.none)], [[x00; x00]], [7]);
        ([], [], []);
        ([], [], []) ]
    ∧ consecutive_silence r.1 = 4.
Proof.
  assert (Forall (λ b, all_zero b = false) [[x01]; [x02]; [x03]; [x04]; [x05]])
    as Hloud by (repeat constructor).
  assert (Forall (λ b, all_zero b = true) [[x00]; [x00; x00]; [x00]; [x00]])
    as Hquiet by (repeat constructor).
  split; [exact Hloud|]. split; [exact Hquiet|].
  exact (scenario_five_loud_four_silent (0 : Z) 7 (λ _ _, None)
           [x01] [x02] [x03] [x04] [x05] [x00] [x00; x00] [x00] [x00]
           Hloud Hquiet).
Defined.

(** ** The frame hand-off *)

Lemma handoff_inv_cases (q : Queue.t (option bytes)) :
  handoff_inv q →
  q = Queue.mk 1 [] ∨ ∃ held, q = Queue.mk 1 [held].
Proof.
  destruct q as [n [|held [|x items]]]; intros [Hn Hlen]; simpl in *; subst.
  - by left.
  - right. by exists held.
  - lia.
Qed.

Lemma handoff_inv_init : handoff_inv audio_queue_init.
Proof. split; [reflexivity|simpl; lia]. Qed.

Lemma handoff_step_inv q op : handoff_inv q → handoff_inv (handoff_step q op).1.
Proof.
  intros Hinv. destruct (handoff_inv_cases q Hinv) as [->|[held ->]];
    destruct op; vm_compute; (split; [reflexivity|lia]).
Qed.

Lemma handoff_run_inv ops : ∀ q, handoff_inv q → handoff_inv (handoff_run q ops).1.
Proof.
  induction ops as [|op ops IH]; intros q Hinv; [done|].
  simpl. by apply IH, handoff_step_inv.
Qed.

Lemma handoff_run_never_fails ops :
  ∀ q, Forall (λ o, ∀ e, o ≠ Failed e) (handoff_run q ops).2.
Proof.
  induction ops as [|op ops IH]; intros q; simpl; constructor; [|apply IH].
  intros e. destruct op as [indata|]; simpl.
  - unfold _recording_callback_main_thread, Queue.put_nowait.
    by destruct (Queue.full q).
  - by destruct (Queue.get q) as [[item q']|].
Qed.

(** C6, as amended. Whatever sequence of callback puts and consumer takes
    [audio_queue] has seen, it holds at most one item and the callback has
    never raised. In the state reached: if the slot is empty, a put fills it
    and a take suspends; if the slot holds a frame, a put returns at once,
    leaves the held (older) frame in place and loses the incoming one, and
    the next take delivers the held frame. *)
Theorem handoff_holds_one_frame_and_drops_incoming :
  ∀ (ops : list handoff_op) (indata : bytes),
    let r := handoff_run audio_queue_init ops in
    let q := r.1 in
    Queue.maxsize q = 1
    ∧ (length (Queue.items q) ≤ 1)%nat
    ∧ Forall (λ o, ∀ e, o ≠ Failed e) r.2
    ∧ match Queue.items q with
      | [] =>
          handoff_step q (Produce indata)
          = (Queue.mk 1 [Some indata], Returned)
          ∧ handoff_step q Consume = (q, Suspended)
      | [held] =>
          handoff_step q (Produce indata) = (q, Returned)
          ∧ handoff_step q Consume = (Queue.mk 1 [], Delivered held)
      | _ => False
      end.
Proof.
  intros ops indata r q.
  assert (handoff_inv q) as Hinv
    by apply handoff_run_inv, handoff_inv_init.
  destruct Hinv as [Hmax Hlen]. split; [done|]. split; [done|].
  split; [apply handoff_run_never_fails|].
  destruct (handoff_inv_cases q (conj Hmax Hlen)) as [->|[held ->]]; done.
Qed.

(** C6, as stated, fails: with frame 1 in the slot, a put of frame 2 does not
    drop the older frame; the slot still holds frame 1, the next take delivers
    frame 1, and frame 2 is never delivered. *)
Lemma older_frame_kept_incoming_dropped :
  let q1 := (handoff_run audio_queue_init [Produce [x01]]).1 in
  let r := handoff_run q1 [Produce [x02]; Consume; Consume] in
  Queue.items q1 = [Some [x01]]
  ∧ Queue.items (handoff_step q1 (Produce [x02])).1 = [Some [x01]]
  ∧ r.2 = [Returned; Delivered (Some [x01]); Suspended].
Proof. by vm_compute. Qed.

(** ** Joining and leaving *)

Lemma list_remove_not_in (x : Z) (l : list Z) :
  x ∉ l → list_remove x l = Raise ValueError.
Proof.
  induction l as [|y l IH]; intros Hnot; [done|].
  apply not_elem_of_cons in Hnot as [Hne Hnot]. simpl.
  rewrite bool_decide_eq_false_2 by congruence. by rewrite IH.
Qed.

(** Removing what was just appended gives the list back. *)
Lemma list_remove_appended (x : Z) (l : list Z) :
  x ∉ l → list_remove x (l ++ [x]) = Ok l.
Proof.
  induction l as [|y l IH]; intros Hnot; simpl.
  - by rewrite bool_decide_eq_true_2.
  - apply not_elem_of_cons in Hnot as [Hne Hnot].
    rewrite bool_decide_eq_false_2 by congruence. by rewrite IH.
Qed.

Section SessionFacts.
Context `{OpusLib encoder_state}.
Implicit Types (m : Model encoder_state) (channel : Z).

(** [join_voice] in closed form. *)
Lemma join_voice_eq m channel connect_raises :
  join_voice channel connect_raises m
  = if bool_decide (channel ∈ joined m) then (m, [], Ok tt)
    else
      let reset := opus_encoder_ctl (encoder m) CTL_RESET_STATE [] in
      let tail := EvEncoderCtl CTL_RESET_STATE []
                  :: (if v m then [EvJoinedUpdated] else []) in
      match connect_raises with
      | None =>
          (set_encoder reset (set_joined (joined m ++ [channel]) m),
           EvConnect channel :: tail, Ok tt)
      | Some e =>
          (set_encoder reset m, EvConnect channel :: EvPrint e :: tail, Ok tt)
      end.
Proof.
  unfold join_voice, mbind, M_bind, gets. simpl.
  destruct (bool_decide_reflect (channel ∈ joined m)) as [Hin|Hnot]; [done|].
  unfold modify, try_except, call, joined_remove, notify_joined_updated, when,
    emit, raise, mbind, M_bind, gets, mret, M_ret. simpl.
  destruct connect_raises as [e|]; simpl.
  - rewrite list_remove_appended by done. simpl.
    destruct m as [attached j i st]; simpl. by destruct attached.
  - destruct m as [attached j i st]; simpl. by destruct attached.
Qed.



(** [leave_voice] on a channel that is not joined. *)
Lemma leave_voice_not_joined m channel clients :
  channel ∉ joined m → leave_voice channel clients m = (m, [], Raise ValueError).
Proof.
  intros Hnot.
  unfold leave_voice, joined_remove, mbind, M_bind, gets, raise. simpl.
  by rewrite list_remove_not_in.
Qed.

(** C7, as amended. [leave_voice] on a channel that is not in the joined
    list raises [ValueError] to the caller; the joined list and the rest of
    the state are unchanged, nothing is disconnected and the view is not
    notified. *)
Theorem leave_voice_not_joined_raises :
  ∀ m channel clients,
    channel ∉ joined m →
    let r := leave_voice channel clients m in
    outcome_of r = Raise ValueError
    ∧ state_of r = m
    ∧ events_of r = [].
Proof.
  intros m channel clients Hnot r. subst r.
  by rewrite leave_voice_not_joined.
Qed.

End SessionFacts.

(** C7, as stated, fails: leaving channel 3 while only 1 and 2 are joined
    is not silent, the call raises [ValueError]. *)
Lemma leave_voice_unjoined_channel_raises :
  joined example_model = [1; 2]
  ∧ outcome_of (leave_voice 3 [(10, 1); (11, 3)] example_model)
    = Raise ValueError.
Proof. by vm_compute. Qed.


(** The amended C7 at work on the example. *)
Lemma leave_voice_not_joined_raises_witness :
  (3 ∉ joined example_model)
  ∧ outcome_of (leave_voice 3 [(10, 1); (11, 3)] example_model)
    = Raise ValueError
  ∧ state_of (leave_voice 3 [(10, 1); (11, 3)] example_model) = example_model
  ∧ events_of (leave_voice 3 [(10, 1); (11, 3)] example_model) = [].
Proof.
  assert (3 ∉ joined example_model) as Hnot
    by (refine (bool_decide_unpack _ _); vm_compute; exact I).
  split; [exact Hnot|].
  exact (leave_voice_not_joined_raises example_model 3 [(10, 1); (11, 3)] Hnot).
Defined.


(** ** Opening the capture stream *)

(** [find_device] fails exactly when no listed device passes the test. *)
Lemma find_device_None hostapis hostapi device devices :
  ∀ idx,
    find_device hostapis hostapi device idx devices = None
    ↔ Forall (λ dev, device_matches hostapis hostapi device dev = false)
        devices.
Proof.
  induction devices as [|dev devices IH]; intros idx; simpl.
  - split; [constructor|done].
  - rewrite Forall_cons.
    destruct (device_matches hostapis hostapi device dev).
    + split; [done|]. by intros [? _].
    + rewrite IH. split; [done|]. by intros [_ ?].
Qed.

(** What it finds is the first device that passes the test. *)
Lemma find_device_Some hostapis hostapi device devices :
  ∀ idx device_id,
    find_device hostapis hostapi device idx devices = Some device_id →
    ∃ dev,
      devices !! (device_id - idx)%nat = Some dev
      ∧ (idx ≤ device_id)%nat
      ∧ device_matches hostapis hostapi device dev = true
      ∧ Forall (λ dev, device_matches hostapis hostapi device dev = false)
          (take (device_id - idx) devices).
Proof.
  induction devices as [|dev devices IH]; intros idx device_id; simpl; [done|].
  destruct (device_matches hostapis hostapi device dev) eqn:Hdev.
  - intros [= <-]. exists dev. rewrite Nat.sub_diag. simpl.
    split; [done|]. split; [done|]. split; [done|]. constructor.
  - intros Hfind. destruct (IH _ _ Hfind) as (dev' & Hlook & Hle & Hm & Hbefore).
    exists dev'. replace (device_id - idx)%nat with (S (device_id - S idx)) by lia.
    simpl. split; [done|]. split; [lia|]. split; [done|]. by constructor.
Qed.

Section RecordingFacts.
Context {encoder_state : Type}.
Implicit Types (m : Model encoder_state).

(** [start_recording] in closed form. *)
Lemma start_recording_eq hostapi device hostapis devices
    open_raises start_raises m :
  start_recording hostapi device hostapis devices open_raises start_raises m
  = let closing := match input_stream m with
                   | Some h => [EvStreamStop h; EvStreamClose h]
                   | None => []
                   end in
    match find_device hostapis hostapi device 0 devices with
    | None => (set_input_stream None m, closing, Ok tt)
    | Some device_id =>
        match open_raises, start_raises with
        | Some e, _ =>
            (set_input_stream None m,
             closing ++ [EvStreamOpen device_id], Raise e)
        | None, Some e =>
            (set_input_stream None m,
             closing ++ [EvStreamOpen device_id; EvStreamStart device_id;
                         EvStreamClose device_id],
             Raise e)
        | None, None =>
            (set_input_stream (Some device_id) m,
             closing ++ [EvStreamOpen device_id; EvStreamStart device_id],
             Ok tt)
        end
    end.
Proof.
  unfold start_recording, mbind, M_bind, gets, modify, try_except, call, emit,
    raise, mret, M_ret.
  destruct m as [attached j [h|] st]; simpl;
    destruct (find_device hostapis hostapi device 0 devices) as [device_id|];
    simpl; try done;
    destruct open_raises as [eo|]; simpl; try done;
    destruct start_raises as [es|]; simpl; done.
Qed.

(** C9, as amended. When no listed device passes the test, [start_recording]
    returns normally: no stream is opened, nothing is raised, and
    [input_stream] is [None] (a stream that was open has been stopped and
    closed). When the stream's [start()] raises, the new stream is closed and
    [input_stream] cleared, as the last thing done, and the same exception
    reaches the caller; when the constructor raises, the exception reaches
    the caller and [input_stream] is [None]. Otherwise the started stream is
    kept. *)
Theorem start_recording_outcomes :
  ∀ hostapi device hostapis devices open_raises start_raises m,
    let r := start_recording hostapi device hostapis devices
               open_raises start_raises m in
    let closing := match input_stream m with
                   | Some h => [EvStreamStop h; EvStreamClose h]
                   | None => []
                   end in
    (find_device hostapis hostapi device 0 devices = None
     ↔ Forall (λ dev, device_matches hostapis hostapi device dev = false)
         devices)
    ∧ match find_device hostapis hostapi device 0 devices with
      | None =>
          outcome_of r = Ok tt
          ∧ input_stream (state_of r) = None
          ∧ events_of r = closing
      | Some device_id =>
          match open_raises, start_raises with
          | Some e, _ =>
              outcome_of r = Raise e
              ∧ input_stream (state_of r) = None
              ∧ events_of r = closing ++ [EvStreamOpen device_id]
          | None, Some e =>
              outcome_of r = Raise e
              ∧ input_stream (state_of r) = None
              ∧ events_of r
                = closing ++ [EvStreamOpen device_id; EvStreamStart device_id;
                              EvStreamClose device_id]
          | None, None =>
              outcome_of r = Ok tt
              ∧ input_stream (state_of r) = Some device_id
              ∧ events_of r
                = closing ++ [EvStreamOpen device_id; EvStreamStart device_id]
          end
      end.
Proof.
  intros hostapi device hostapis devices open_raises start_raises m r closing.
  split; [apply find_device_None|].
  subst r. rewrite start_recording_eq. fold closing.
  destruct (find_device hostapis hostapi device 0 devices) as [device_id|];
    [|done].
  destruct open_raises as [eo|]; [done|]. by destruct start_raises as [es|].
Qed.

End RecordingFacts.

(** C9, as stated, fails: the only input device is on host API [MME], so
    nothing matches the pair asked for, and yet [start_recording] raises
    nothing; it returns normally with no stream open. *)
Lemma start_recording_no_match_returns :
  let r := start_recording "WASAPI" "Microphone"
             example_hostapis example_devices None None example_model in
  Forall (λ dev,
            device_matches example_hostapis "WASAPI" "Microphone" dev = false)
    example_devices
  ∧ outcome_of r = Ok tt
  ∧ input_stream (state_of r) = None
  ∧ events_of r = [].
Proof. split; [by repeat constructor|by vm_compute]. Qed.

(** * Further properties *)

(** ** The voice loop *)

Lemma sends_app evs evs' : sends (evs ++ evs') = sends evs ++ sends evs'.
Proof.
  induction evs as [|ev evs IH]; [done|]. destruct ev; simpl; by rewrite ?IH.
Qed.

Lemma prints_app evs evs' : prints (evs ++ evs') = prints evs ++ prints evs'.
Proof.
  induction evs as [|ev evs IH]; [done|]. destruct ev; simpl; by rewrite ?IH.
Qed.

Lemma signals_to_app c evs evs' :
  signals_to c (evs ++ evs') = signals_to c evs ++ signals_to c evs'.
Proof. unfold signals_to. by rewrite signals_app, filter_app, fmap_app. Qed.

Lemma signal_speaking_sends_nothing e sp clients :
  ∀ attrs,
    sends (signal_speaking e sp attrs clients).2 = []
    ∧ prints (signal_speaking e sp attrs clients).2 = [].
Proof.
  induction clients as [|vc clients IH]; intros attrs; simpl; [done|].
  case_match; simpl; apply IH.
Qed.

Lemma fan_out_sends e packet clients :
  sends (fan_out e packet clients)
  = (λ c, (c, packet)) <$> filter (λ c, is_connected e c = true) clients
  ∧ prints (fan_out e packet clients)
    = omap (λ c, send_audio_packet e c packet)
        (filter (λ c, is_connected e c = true) clients).
Proof.
  induction clients as [|vc clients [IH1 IH2]]; simpl; [done|].
  rewrite filter_cons.
  destruct (is_connected e vc) eqn:Hconn; simpl.
  - destruct (decide (true = true)); [|done]. simpl.
    destruct (send_audio_packet e vc packet); simpl; by rewrite IH1, IH2.
  - destruct (decide (false = true)); [done|]. by rewrite IH1, IH2.
Qed.

Section VoiceLoopMore.
Context `{OpusLib encoder_state}.
Implicit Types (s : loop_state encoder_state) (e : Env) (buffer : bytes).

(** X1. Fan-out with isolated failures: when a frame is transmitted, every
    connected client, in list order, is sent the same packet, the encoder's
    output for the gated buffer, whether or not a send to another client
    raised; what the sends raise is printed, one line per failure, and
    nothing else is. When the frame is not transmitted nothing is sent or
    printed. *)
Theorem fan_out_reaches_every_connected_client :
  ∀ e buffer s,
    let r := loop_body e buffer s in
    let b := (gate (muted e) buffer (consecutive_silence s)).1 in
    let packet := (opus_encode_float (opus_encoder s) b (len b / 8) (len b)).2 in
    sends r.2
    = (if bool_decide (consecutive_silence r.1 ≤ 2)
       then (λ c, (c, packet)) <$> connected_clients e else [])
    ∧ prints r.2
      = (if bool_decide (consecutive_silence r.1 ≤ 2)
         then omap (λ c, send_audio_packet e c packet) (connected_clients e)
         else []).
Proof.
  intros e buffer s r b packet. subst r. rewrite loop_body_counter.
  unfold loop_body. fold b.
  set (k := (gate (muted e) buffer (consecutive_silence s)).2).
  destruct (signal_speaking_sends_nothing e (speaking_of k) (voice_clients e)
              (_dmb_speaking s)) as [Hs Hp].
  destruct (2 <? k) eqn:Hk; simpl.
  - apply Z.ltb_lt in Hk. rewrite !bool_decide_eq_false_2 by lia. done.
  - apply Z.ltb_ge in Hk. rewrite !bool_decide_eq_true_2 by lia.
    rewrite sends_app, prints_app, Hs, Hp. simpl.
    apply fan_out_sends.
Qed.

(** X2. Muting: while the mute flag is set, the only thing ever handed to
    the encoder is a buffer of zero bytes of the captured buffer's length;
    the captured samples never reach it. *)
Theorem muted_audio_never_reaches_encoder :
  ∀ e buffer s,
    muted e = true →
    Forall (λ b, b = zero_bytes (length buffer)
                 ∧ all_zero b = true ∧ length b = length buffer)
      (encoded (loop_body e buffer s).2).
Proof.
  intros e buffer s Hmuted.
  destruct (loop_body_summary e buffer s) as (_ & Henc & _).
  rewrite Henc, gate_buffer, Hmuted.
  case_bool_decide; [|constructor]. constructor; [|constructor].
  split; [done|]. unfold zero_bytes. split.
  - unfold all_zero. apply bool_decide_eq_true_2, Forall_replicate. done.
  - apply length_replicate.
Qed.

(** X3. Speech always gets through: a frame that is not all zero, processed
    while not muted, resets the counter to 0 from any state, is handed to the
    encoder unaltered, is sent to every connected client, and leaves every
    connected client with [voice] as its signalled state. *)
Theorem loud_frame_is_transmitted :
  ∀ e buffer s,
    muted e = false → all_zero buffer = false →
    let r := loop_body e buffer s in
    consecutive_silence r.1 = 0
    ∧ encoded r.2 = [buffer]
    ∧ send_targets r.2 = connected_clients e
    ∧ Forall (λ c, getattr_dmb_speaking (_dmb_speaking r.1) c
                   = SpeakingState.voice)
        (connected_clients e).
Proof.
  intros e buffer s Hmuted Hloud r.
  assert (consecutive_silence r.1 = 0) as Hk.
  { subst r. rewrite loop_body_counter, gate_counter. unfold silent_frame.
    simpl. by rewrite Hmuted, Hloud. }
  destruct (loop_body_summary e buffer s) as (_ & Henc & Hsend).
  fold r in Henc, Hsend. rewrite Hk in Henc, Hsend.
  rewrite gate_buffer, Hmuted in Henc.
  split; [done|]. split; [done|]. split; [done|].
  apply Forall_forall. intros c Hin.
  apply list_elem_of_filter in Hin as [Hconn Hin].
  destruct (loop_body_signals_to e buffer s c) as [_ Hattr].
  fold r in Hattr. rewrite Hk in Hattr. unfold getattr_dmb_speaking at 1.
  rewrite Hattr. unfold signal_due.
  rewrite bool_decide_eq_true_2, Hconn by done. simpl.
  destruct (bool_decide_reflect
              (getattr_dmb_speaking (_dmb_speaking s) c ≠ speaking_of 0))
    as [Hne|Heq]; [done|].
  by apply dec_stable in Heq.
Qed.

(** Along any run the signals sent to one client never repeat the state
    signalled before, starting from the state stored for it. *)
Lemma encode_voice_loop_no_repeat c (ticks : list tick) :
  ∀ s,
    no_repeat_from (getattr_dmb_speaking (_dmb_speaking s) c)
      (signals_to c (concat (encode_voice_loop ticks s).2)).
Proof.
  induction ticks as [|t ticks IH]; intros s; simpl; [done|].
  destruct (t_running t); [|done]. destruct (t_item t) as [buffer|]; [|done].
  simpl. rewrite signals_to_app.
  destruct (loop_body_signals_to (t_env t) buffer s c) as [Hsig Hattr].
  specialize (IH (loop_body (t_env t) buffer s).1).
  unfold getattr_dmb_speaking at 1 in IH. rewrite Hattr in IH. rewrite Hsig.
  unfold signal_due in *.
  destruct (bool_decide (c ∈ voice_clients (t_env t))
            && is_connected (t_env t) c); simpl in *; [|done].
  destruct (bool_decide_reflect
              (getattr_dmb_speaking (_dmb_speaking s) c
               ≠ speaking_of
                   (consecutive_silence (loop_body (t_env t) buffer s).1)))
    as [Hne|Heq]; simpl in *; done.
Qed.

(** X4. No repeated signals over a whole run: whatever the loop meets
    (frames, mute flag, clients coming, going, connecting, disconnecting,
    the loop stopping), the states signalled to any one client from a fresh
    loop alternate: the first is not [none], and none equals the one
    signalled to that client just before. *)
Theorem signals_to_a_client_alternate :
  ∀ (encoder0 : encoder_state) (ticks : list tick) (client : Z),
    no_repeat_from SpeakingState.none
      (signals_to client
         (concat (encode_voice_loop ticks (loop_init encoder0)).2)).
Proof.
  intros encoder0 ticks client.
  apply (encode_voice_loop_no_repeat client ticks (loop_init encoder0)).
Qed.

(** The frames encoded during a stretch of silence, from a counter [k]. *)
Lemma silence_encodes (frames : list (Env * bytes)) :
  ∀ s,
    0 ≤ consecutive_silence s →
    Forall (λ f, silent_frame f = true) frames →
    Z.of_nat (length (concat (encoded <$>
       (encode_voice_loop ((λ f, frame f.1 f.2) <$> frames) s).2)))
    = Z.max 0 (Z.min (Z.of_nat (length frames)) (2 - consecutive_silence s)).
Proof.
  induction frames as [|[e buffer] frames IH]; intros s Hk Hall.
  - simpl. lia.
  - apply Forall_cons in Hall as [Hf Hall].
    rewrite fmap_cons. simpl frame. rewrite encode_voice_loop_frame.
    cbn [fst snd]. rewrite fmap_cons. simpl concat. rewrite length_app.
    assert (consecutive_silence (loop_body e buffer s).1
            = consecutive_silence s + 1) as Hk'.
    { by rewrite loop_body_counter, gate_counter, Hf. }
    rewrite Nat2Z.inj_add, IH by (done || lia). rewrite Hk'.
    destruct (loop_body_summary e buffer s) as (_ & Henc & _).
    rewrite Henc, Hk'. clear Henc.
    destruct (bool_decide_reflect (consecutive_silence s + 1 ≤ 2));
      cbn [length]; lia.
Qed.

(** X5. Silence costs at most two packets: from a state whose counter is 0
    (a fresh loop, or just after a frame of speech), a stretch of [n] frames
    that are muted or all zero has exactly [min n 2] of them encoded. *)
Theorem silence_transmits_at_most_two_frames :
  ∀ s (frames : list (Env * bytes)),
    consecutive_silence s = 0 →
    Forall (λ f, silent_frame f = true) frames →
    length (concat (encoded <$>
       (encode_voice_loop ((λ f, frame f.1 f.2) <$> frames) s).2))
    = min (length frames) 2.
Proof.
  intros s frames Hk Hall.
  pose proof (silence_encodes frames s) as Hlen.
  rewrite Hk in Hlen. specialize (Hlen (Z.le_refl 0) Hall). lia.
Qed.

(** X6. The loop returns at the first turn on which [self.running] is false
    or the item is the [None] sentinel: the frames before it are processed
    as usual, and nothing that comes after it is processed, signalled,
    encoded or sent. *)
Theorem loop_returns_at_first_stop :
  ∀ (frames : list (Env * bytes)) (t : tick) (rest : list tick) s,
    stops t = true →
    encode_voice_loop (((λ f, frame f.1 f.2) <$> frames) ++ t :: rest) s
    = encode_voice_loop ((λ f, frame f.1 f.2) <$> frames) s.
Proof.
  intros frames t rest s Hstop. revert s.
  induction frames as [|f frames IH]; intros s.
  - simpl. unfold stops in Hstop. destruct (t_running t); [|done].
    simpl in Hstop. apply bool_decide_eq_true in Hstop. by rewrite Hstop.
  - simpl. by rewrite IH.
Qed.

End VoiceLoopMore.

(** ** The joined list *)

(** What [l.remove(x)] gives when [x] is in [l]. *)
Lemma list_remove_in (x : Z) (l : list Z) :
  x ∈ l →
  ∃ l',
    list_remove x l = Ok l'
    ∧ length l = S (length l')
    ∧ (∀ c, c ∈ l ↔ c = x ∨ c ∈ l')
    ∧ (NoDup l → NoDup l' ∧ x ∉ l').
Proof.
  induction l as [|y l IH]; intros Hin; [by apply not_elem_of_nil in Hin|].
  simpl. destruct (bool_decide_reflect (y = x)) as [->|Hne].
  - exists l. split; [done|]. split; [done|]. split.
    + intros c. apply elem_of_cons.
    + intros Hnd. apply NoDup_cons in Hnd as [Hnot Hnd]. done.
  - apply elem_of_cons in Hin as [Heq|Hin]; [congruence|].
    destruct (IH Hin) as (l' & Hrem & Hlen & Hmem & Hnd). rewrite Hrem.
    exists (y :: l'). split; [done|]. split; [simpl; by rewrite Hlen|]. split.
    + intros c. rewrite !elem_of_cons, Hmem. tauto.
    + intros Hnd'. apply NoDup_cons in Hnd' as [Hy Hnd'].
      destruct (Hnd Hnd') as [Hnd'' Hx]. split.
      * apply NoDup_cons. split; [|done]. intros Hy'. apply Hy, Hmem. by right.
      * apply not_elem_of_cons. split; [congruence|done].
Qed.

Section SessionsMore.
Context `{OpusLib encoder_state}.
Implicit Types (m : Model encoder_state) (channel : Z).

(** [leave_voice] on a joined channel, in closed form. *)
Lemma leave_voice_joined m channel clients l' :
  list_remove channel (joined m) = Ok l' →
  leave_voice channel clients m
  = (set_joined l' m,
     ((λ c : Z * Z, EvDisconnect c.1) <$> filter (λ c, c.2 = channel) clients)
     ++ (if v m then [EvJoinedUpdated] else []),
     Ok tt).
Proof.
  intros Hrem.
  unfold leave_voice, joined_remove, notify_joined_updated, when, mbind,
    M_bind, gets, modify, emit, mret, M_ret.
  simpl. rewrite Hrem. simpl. destruct m as [attached j i st]; simpl.
  destruct attached; simpl; by rewrite ?app_nil_r.
Qed.

(** X7. The joined list never holds a channel twice: if it has no
    duplicates, it has none after a [join_voice], whatever the connect does,
    and none after a [leave_voice], whether it succeeds or raises. *)
Theorem joined_stays_duplicate_free :
  ∀ m channel connect_raises clients,
    NoDup (joined m) →
    NoDup (joined (state_of (join_voice channel connect_raises m)))
    ∧ NoDup (joined (state_of (leave_voice channel clients m))).
Proof.
  intros m channel connect_raises clients Hnd. split.
  - rewrite join_voice_eq.
    destruct (bool_decide_reflect (channel ∈ joined m)) as [Hin|Hnot]; [done|].
    destruct connect_raises as [e|]; simpl; [done|].
    apply NoDup_app. split; [done|]. split; [|apply NoDup_singleton].
    intros c Hc Hc'. apply list_elem_of_singleton in Hc'. by subst.
  - destruct (decide (channel ∈ joined m)) as [Hin|Hnot].
    + destruct (list_remove_in channel (joined m) Hin)
        as (l' & Hrem & _ & _ & Hnd').
      rewrite (leave_voice_joined m channel clients l' Hrem). simpl.
      by apply Hnd'.
    + by rewrite leave_voice_not_joined.
Qed.

(** X8. Leaving a joined channel: [leave_voice] returns normally, the channel
    is no longer in the joined list, every other channel still is, exactly
    the voice clients on that channel are disconnected, in list order, and
    the view, when attached, is told once, after that. *)
Theorem leave_voice_removes_channel :
  ∀ m channel clients,
    NoDup (joined m) → channel ∈ joined m →
    let r := leave_voice channel clients m in
    outcome_of r = Ok tt
    ∧ (channel ∉ joined (state_of r))
    ∧ (∀ c, c ∈ joined (state_of r) ↔ c ∈ joined m ∧ c ≠ channel)
    ∧ length (joined m) = S (length (joined (state_of r)))
    ∧ events_of r
      = ((λ c : Z * Z, EvDisconnect c.1)
           <$> filter (λ c, c.2 = channel) clients)
        ++ (if v m then [EvJoinedUpdated] else []).
Proof.
  intros m channel clients Hnd Hin r. subst r.
  destruct (list_remove_in channel (joined m) Hin)
    as (l' & Hrem & Hlen & Hmem & Hnd').
  destruct (Hnd' Hnd) as [Hnd'' Hnot].
  rewrite (leave_voice_joined m channel clients l' Hrem). simpl.
  split; [done|]. split; [done|]. split; [|done].
  intros c. rewrite Hmem. split.
  - intros Hc. split; [by right|]. intros ->. done.
  - intros [[->|Hc] Hne]; done.
Qed.

(** X9. Join then leave is a round trip on the joined list: after joining a
    channel that was not joined (the connect succeeding) and leaving it
    again, the list is exactly what it was, order included, and neither call
    raised. *)
Theorem join_then_leave_restores_joined :
  ∀ m channel clients,
    channel ∉ joined m →
    let r := join_voice channel None m in
    let r' := leave_voice channel clients (state_of r) in
    outcome_of r = Ok tt
    ∧ channel ∈ joined (state_of r)
    ∧ outcome_of r' = Ok tt
    ∧ joined (state_of r') = joined m.
Proof.
  intros m channel clients Hnot r r'. subst r' r. rewrite join_voice_eq.
  rewrite bool_decide_eq_false_2 by done. simpl.
  split; [done|]. split; [apply elem_of_app; right; apply list_elem_of_here|].
  pose proof (list_remove_appended channel (joined m) Hnot) as Hrem.
  erewrite leave_voice_joined by (simpl; exact Hrem). done.
Qed.

End SessionsMore.

(** ** The hand-off in use *)

(** Whatever the queue holds at the start, what the consumer gets is, in
    order, part of what was held followed by what was captured. *)
Lemma handoff_run_delivered (ops : list handoff_op) :
  ∀ q,
    delivered (handoff_run q ops).2
      `sublist_of` Queue.items q ++ (Some <$> produced ops).
Proof.
  induction ops as [|op ops IH]; intros q; simpl.
  - apply sublist_nil_l.
  - destruct op as [indata|]; simpl.
    + unfold _recording_callback_main_thread, Queue.put_nowait.
      destruct (Queue.full q); simpl.
      * unfold produced. simpl. apply sublist_app_cons_r. left. apply IH.
      * unfold produced. simpl.
        specialize (IH {| Queue.maxsize := Queue.maxsize q;
                          Queue.items := Queue.items q ++ [Some indata] |}).
        simpl in IH. by rewrite <- app_assoc in IH.
    + unfold Queue.get. destruct (Queue.items q) as [|item items] eqn:Hitems.
      * simpl. specialize (IH q). by rewrite Hitems in IH.
      * simpl. apply sublist_skip.
        apply (IH {| Queue.maxsize := Queue.maxsize q; Queue.items := items |}).
Qed.

(** X10. The hand-off invents, duplicates and reorders nothing: over any
    sequence of puts and takes from the empty queue, the frames the consumer
    receives are, in capture order, a sub-sequence of the frames captured. *)
Theorem delivered_frames_are_captured_frames_in_order :
  ∀ ops : list handoff_op,
    delivered (handoff_run audio_queue_init ops).2
      `sublist_of` (Some <$> produced ops).
Proof. intros ops. apply (handoff_run_delivered ops audio_queue_init). Qed.

Lemma handoff_run_put_take (f : bytes) (ops : list handoff_op) :
  handoff_run (Queue.mk 1 []) (Produce f :: Consume :: ops)
  = ((handoff_run (Queue.mk 1 []) ops).1,
     Returned :: Delivered (Some f) :: (handoff_run (Queue.mk 1 []) ops).2).
Proof. done. Qed.

(** X11. No loss without backpressure: when every capture is followed by a
    take before the next capture, every frame is delivered, in order, and
    the slot ends empty. *)
Theorem handoff_is_lossless_when_consumer_keeps_up :
  ∀ frames : list bytes,
    let r := handoff_run audio_queue_init
               (concat ((λ f, [Produce f; Consume]) <$> frames)) in
    delivered r.2 = Some <$> frames
    ∧ Queue.items r.1 = [].
Proof.
  intros frames. change audio_queue_init with (Queue.mk (A:=option bytes) 1 []).
  induction frames as [|f frames [IH1 IH2]]; [done|].
  rewrite fmap_cons. cbn [concat app]. rewrite handoff_run_put_take.
  cbn [fst snd]. split; [|done].
  unfold delivered in *. cbn [omap list_omap]. by rewrite IH1.
Qed.

(** ** Devices *)

(** X12. The listing text of a device tells the device: two devices with the
    same [__repr__] have the same name and the same default flag. *)
Theorem SoundDevice_repr_inj :
  ∀ d1 d2 : SoundDevice, SoundDevice_repr d1 = SoundDevice_repr d2 → d1 = d2.
Proof.
  intros [n1 [|]] [n2 [|]]; unfold SoundDevice_repr; simpl;
    intros Heq; by simplify_eq.
Qed.

Lemma device_matches_split hostapis hostapi device dev :
  device_matches hostapis hostapi device dev
  = bool_decide (dev_name dev = device) && is_input_of hostapis hostapi dev.
Proof. unfold device_matches, is_input_of. by rewrite !andb_assoc. Qed.

(** A device can only pass the filter if some host API has the name. *)
Lemma is_input_of_find_hostapi hostapis hostapi dev :
  is_input_of hostapis hostapi dev = true →
  is_Some (find_hostapi hostapi hostapis).
Proof.
  unfold is_input_of. intros Hin.
  destruct (hostapis !! dev_hostapi dev) as [api|] eqn:Hlook;
    [|by rewrite andb_false_r in Hin].
  apply andb_true_iff in Hin as [_ Hname]. apply bool_decide_eq_true in Hname.
  apply list_elem_of_lookup_2 in Hlook. clear dev.
  induction hostapis as [|api' hostapis IH]; [by apply not_elem_of_nil in Hlook|].
  simpl. destruct (bool_decide_reflect (api_name api' = hostapi)); [done|].
  apply elem_of_cons in Hlook as [->|Hlook]; [done|]. by apply IH.
Qed.

Lemma enumerate_inputs_names hostapis hostapi default_input_id devices :
  ∀ idx,
    sd_name <$> enumerate_inputs hostapis hostapi default_input_id idx devices
    = dev_name
        <$> filter (λ dev, is_input_of hostapis hostapi dev = true) devices.
Proof.
  induction devices as [|dev devices IH]; intros idx; simpl; [done|].
  rewrite filter_cons.
  destruct (is_input_of hostapis hostapi dev); simpl.
  - destruct (decide (true = true)); [|done]. simpl. by rewrite IH.
  - destruct (decide (false = true)); [done|]. apply IH.
Qed.

(** Past the default index nothing is marked; before it, at most one. *)
Lemma enumerate_inputs_defaults hostapis hostapi default_input_id devices :
  ∀ idx,
    (length (filter (λ d, is_default d = true)
               (enumerate_inputs hostapis hostapi default_input_id idx devices))
     ≤ 1)%nat
    ∧ (default_input_id < Z.of_nat idx →
       filter (λ d, is_default d = true)
         (enumerate_inputs hostapis hostapi default_input_id idx devices)
       = []).
Proof.
  induction devices as [|dev devices IH]; intros idx; simpl.
  - split; [simpl; lia|done].
  - destruct (IH (S idx)) as [IH1 IH2].
    destruct (is_input_of hostapis hostapi dev); [|split; [done|]].
    + rewrite filter_cons. simpl.
      destruct (Z.of_nat idx =? default_input_id) eqn:Hidx.
      * apply Z.eqb_eq in Hidx. destruct (decide (true = true)); [|done].
        rewrite IH2 by lia. split; [simpl; lia|lia].
      * apply Z.eqb_neq in Hidx. destruct (decide (false = true)); [done|].
        split; [done|]. intros Hlt. apply IH2. lia.
    + intros Hlt. apply IH2. lia.
Qed.

(** X13. What [list_sound_input_devices] lists: the names, in enumeration
    order, of exactly the devices with at least one input channel whose host
    API entry exists and carries the given name (nothing for a name no host
    API has), with at most one of them marked as the default. *)
Theorem list_sound_input_devices_lists_inputs :
  ∀ hostapi hostapis devices,
    let listing := list_sound_input_devices hostapi hostapis devices in
    sd_name <$> listing
    = dev_name
        <$> filter (λ dev, is_input_of hostapis hostapi dev = true) devices
    ∧ (length (filter (λ d, is_default d = true) listing) ≤ 1)%nat
    ∧ match find_hostapi hostapi hostapis with
      | None => listing = []
      | Some api =>
          Forall (λ d, is_default d = true →
                       ∃ idx dev,
                         Z.of_nat idx = default_input_device api
                         ∧ devices !! idx = Some dev
                         ∧ dev_name dev = sd_name d)
            listing
      end.
Proof.
  intros hostapi hostapis devices listing. subst listing.
  unfold list_sound_input_devices.
  destruct (find_hostapi hostapi hostapis) as [api|] eqn:Hfind.
  - split; [apply enumerate_inputs_names|].
    split; [apply enumerate_inputs_defaults|].
    assert (∀ idx0 devs,
      Forall (λ d, is_default d = true →
                   ∃ idx dev, Z.of_nat idx = default_input_device api
                     ∧ devs !! (idx - idx0)%nat = Some dev
                     ∧ (idx0 ≤ idx)%nat
                     ∧ dev_name dev = sd_name d)
        (enumerate_inputs hostapis hostapi (default_input_device api)
           idx0 devs)) as Hgen.
    { intros idx0 devs. revert idx0.
      induction devs as [|dev devs IH]; intros idx0; simpl; [constructor|].
      assert (Forall (λ d, is_default d = true →
                ∃ idx dev',
                  Z.of_nat idx = default_input_device api
                  ∧ (dev :: devs) !! (idx - idx0)%nat = Some dev'
                  ∧ (idx0 ≤ idx)%nat ∧ dev_name dev' = sd_name d)
                (enumerate_inputs hostapis hostapi (default_input_device api)
                   (S idx0) devs)) as Htail.
      { eapply Forall_impl; [apply (IH (S idx0))|].
        intros d Hd Hdef. destruct (Hd Hdef) as (idx & dev' & ? & ? & ? & ?).
        exists idx, dev'. split; [done|].
        replace (idx - idx0)%nat with (S (idx - S idx0)) by lia.
        split; [done|]. split; [lia|done]. }
      destruct (is_input_of hostapis hostapi dev); [|done].
      constructor; [|done]. simpl. intros Hdef. apply Z.eqb_eq in Hdef.
      exists idx0, dev. rewrite Nat.sub_diag. done. }
    eapply Forall_impl; [apply (Hgen 0%nat devices)|].
    intros d Hd Hdef. destruct (Hd Hdef) as (idx & dev & ? & Hlook & ? & ?).
    rewrite Nat.sub_0_r in Hlook. by exists idx, dev.
  - split; [|split; [simpl; lia|done]]. simpl. symmetry.
    destruct (filter (λ dev, is_input_of hostapis hostapi dev = true) devices)
      as [|dev inputs] eqn:Hinputs; [done|].
    assert (dev ∈ filter (λ dev, is_input_of hostapis hostapi dev = true)
                    devices) as Hdev by (rewrite Hinputs; apply list_elem_of_here).
    apply list_elem_of_filter in Hdev as [Hin _].
    apply is_input_of_find_hostapi in Hin. rewrite Hfind in Hin.
    by destruct Hin.
Qed.

(** X14. The listing and the opening agree: a name appears in the listing of
    a host API exactly when [start_recording]'s search finds a device for
    that name on that host API. *)
Theorem listed_devices_are_the_ones_found :
  ∀ hostapi device hostapis devices,
    device ∈ sd_name <$> list_sound_input_devices hostapi hostapis devices
    ↔ is_Some (find_device hostapis hostapi device 0 devices).
Proof.
  intros hostapi device hostapis devices.
  destruct (list_sound_input_devices_lists_inputs hostapi hostapis devices)
    as [-> _].
  rewrite list_elem_of_fmap. split.
  - intros (dev & -> & Hin). apply list_elem_of_filter in Hin as [Hin Hdev].
    destruct (find_device hostapis hostapi (dev_name dev) 0 devices) eqn:Hfind;
      [done|].
    apply find_device_None in Hfind. rewrite Forall_forall in Hfind.
    specialize (Hfind dev Hdev). rewrite device_matches_split, Hin in Hfind.
    by rewrite bool_decide_eq_true_2 in Hfind.
  - intros [device_id Hfind].
    destruct (find_device_Some _ _ _ _ _ _ Hfind)
      as (dev & Hlook & _ & Hmatch & _).
    rewrite device_matches_split in Hmatch.
    apply andb_true_iff in Hmatch as [Hname Hin].
    apply bool_decide_eq_true in Hname.
    exists dev. split; [done|]. apply list_elem_of_filter. split; [done|].
    by apply list_elem_of_lookup_2 in Hlook.
Qed.

Section RecordingMore.
Context {encoder_state : Type}.
Implicit Types (m : Model encoder_state).

(** X15. Which stream is opened: when neither the constructor nor [start()]
    raises, [start_recording] ends with the stream of the first device, in
    enumeration order, that passes the test of line 161, no earlier device
    passing it; it ends with no stream exactly when no device passes. *)
Theorem start_recording_opens_first_match :
  ∀ hostapi device hostapis devices m,
    let r := start_recording hostapi device hostapis devices None None m in
    outcome_of r = Ok tt
    ∧ match input_stream (state_of r) with
      | Some device_id =>
          ∃ dev,
            devices !! device_id = Some dev
            ∧ device_matches hostapis hostapi device dev = true
            ∧ Forall (λ dev, device_matches hostapis hostapi device dev = false)
                (take device_id devices)
      | None =>
          Forall (λ dev, device_matches hostapis hostapi device dev = false)
            devices
      end.
Proof.
  intros hostapi device hostapis devices m r. subst r.
  rewrite start_recording_eq.
  destruct (find_device hostapis hostapi device 0 devices) as [device_id|]
    eqn:Hfind; simpl.
  - split; [done|].
    destruct (find_device_Some _ _ _ _ _ _ Hfind)
      as (dev & Hlook & _ & Hmatch & Hbefore).
    rewrite Nat.sub_0_r in Hlook, Hbefore. by exists dev.
  - split; [done|]. by apply find_device_None in Hfind.
Qed.

End RecordingMore.

(** ** Bit rate *)

Section BitrateFacts.
Context `{OpusLib encoder_state}.
Implicit Types (m : Model encoder_state).

(** X16. [set_bitrate] never asks the codec for a rate outside 12 to 512
    kbit/s: it sends one [CTL_SET_BITRATE] request whose argument is between
    12000 and 512000, which is [kbps * 1000] exactly when [kbps] is between
    12 and 512; it never raises and leaves the joined list and the stream
    alone. *)
Theorem set_bitrate_is_clamped :
  ∀ (kbps : Z) m,
    let r := set_bitrate kbps m in
    ∃ bps,
      events_of r = [EvEncoderCtl CTL_SET_BITRATE [bps]]
      ∧ encoder (state_of r)
        = opus_encoder_ctl (encoder m) CTL_SET_BITRATE [bps]
      ∧ 12000 ≤ bps ≤ 512000
      ∧ (bps = kbps * 1000 ↔ 12 ≤ kbps ≤ 512)
      ∧ joined (state_of r) = joined m
      ∧ input_stream (state_of r) = input_stream m
      ∧ outcome_of r = Ok tt.
Proof.
  intros kbps m r. exists (Z.min 512 (Z.max 12 kbps) * 1000).
  subst r. unfold set_bitrate, mbind, M_bind, gets, emit, modify. simpl.
  split; [done|]. split; [done|]. split; [lia|]. split; [lia|done].
Qed.

End BitrateFacts.

(** ** The guild view *)

(** X17. A stale answer is dropped: if, while [view_guild(a)] waits for its
    channels, another guild (or none) is chosen, then the answer for [a]
    changes nothing and the view is not told, whenever it arrives; once the
    answer for the guild chosen last has arrived, the channel list is that
    guild's voice channels, in both orders of arrival. *)
Theorem view_guild_drops_stale_answer :
  ∀ (g : GuildView) (a b : Z) (fa fb : list Channel),
    a ≠ b →
    let g2 := view_guild_request (Some b) (view_guild_request (Some a) g) in
    view_guild_response a fa g2 = (g2, false)
    ∧ channels g2 = []
    ∧ channels (view_guild_response b fb (view_guild_response a fa g2).1).1
      = filter (λ i, ch_is_voice i = true) fb
    ∧ view_guild_response a fa (view_guild_response b fb g2).1
      = ((view_guild_response b fb g2).1, false)
    ∧ channels (view_guild_response b fb g2).1
      = filter (λ i, ch_is_voice i = true) fb.
Proof.
  intros g a b fa fb Hne g2. subst g2.
  assert (∀ chs attached fetched,
            view_guild_response a fetched
              {| channels := chs; current_viewing_guild := Some b;
                 gv_v := attached |}
            = ({| channels := chs; current_viewing_guild := Some b;
                  gv_v := attached |}, false)) as Hstale.
  { intros chs attached fetched. unfold view_guild_response. simpl.
    rewrite bool_decide_eq_true_2; [done|congruence]. }
  assert (∀ chs attached fetched,
            view_guild_response b fetched
              {| channels := chs; current_viewing_guild := Some b;
                 gv_v := attached |}
            = ({| channels := filter (λ i, ch_is_voice i = true) fetched;
                  current_viewing_guild := Some b; gv_v := attached |},
               attached)) as Hfresh.
  { intros chs attached fetched. unfold view_guild_response. simpl.
    rewrite bool_decide_eq_false_2; [done|]. intros Hc. by apply Hc. }
  unfold view_guild_request. simpl.
  repeat (rewrite ?Hstale, ?Hfresh; simpl). done.
Qed.

Lemma guild_view_step_inv g st :
  Forall (λ i, ch_is_voice i = true) (channels g)
  ∧ match current_viewing_guild g with
    | None => channels g = []
    | Some _ => True
    end →
  Forall (λ i, ch_is_voice i = true) (channels (guild_view_step g st))
  ∧ match current_viewing_guild (guild_view_step g st) with
    | None => channels (guild_view_step g st) = []
    | Some _ => True
    end.
Proof.
  intros [Hvoice Hnone]. destruct st as [guild|guild fetched]; simpl.
  - split; [constructor|]. by destruct guild.
  - unfold view_guild_response.
    destruct (bool_decide_reflect (current_viewing_guild g ≠ Some guild))
      as [Hne|Heq]; simpl; [done|].
    apply dec_stable in Heq. rewrite Heq. split; [|done].
    apply Forall_forall. intros i Hi. by apply list_elem_of_filter in Hi as [? _].
Qed.

(** X18. Whatever [view_guild] calls have been made and however their
    fetches were interleaved, the channel list holds voice channels only,
    and it is empty while no guild is being viewed. *)
Theorem channels_are_voice_channels_of_viewed_guild :
  ∀ (attached : bool) (steps : list guild_step),
    let g := foldl guild_view_step (guild_view_init attached) steps in
    Forall (λ i, ch_is_voice i = true) (channels g)
    ∧ match current_viewing_guild g with
      | None => channels g = []
      | Some _ => True
      end.
Proof.
  intros attached steps g. subst g.
  induction steps as [|st steps IH] using rev_ind.
  - split; [constructor|done].
  - rewrite foldl_snoc. by apply guild_view_step_inv.
Qed.

Section SessionsCompose.
Context `{OpusLib encoder_state}.
Implicit Types (m : Model encoder_state) (channel : Z).

(** X19. Joining twice connects once: after a [join_voice] whose connect
    succeeded (or that found the channel already joined), a second
    [join_voice] of the same channel makes no connect attempt, does not
    reset the encoder, does not tell the view and changes nothing. *)
Theorem second_join_does_nothing :
  ∀ m channel connect_raises,
    let r := join_voice channel None m in
    channel ∈ joined (state_of r)
    ∧ join_voice channel connect_raises (state_of r) = (state_of r, [], Ok tt).
Proof.
  intros m channel connect_raises r.
  assert (channel ∈ joined (state_of r)) as Hin.
  { subst r. rewrite join_voice_eq.
    destruct (bool_decide_reflect (channel ∈ joined m)) as [Hin|Hnot]; [done|].
    simpl. apply elem_of_app. right. apply list_elem_of_here. }
  split; [done|]. rewrite join_voice_eq. by rewrite bool_decide_eq_true_2.
Qed.

End SessionsCompose.

(** ** Worked instances *)

(** X2 on the example: a two-byte frame processed while muted. *)
Lemma muted_audio_never_reaches_encoder_witness :
  muted example_env_muted = true
  ∧ Forall (λ b, b = zero_bytes (length ([x01; x02] : bytes))
                 ∧ all_zero b = true
                 ∧ length b = length ([x01; x02] : bytes))
      (encoded (loop_body example_env_muted [x01; x02] (loop_init (0 : Z))).2).
Proof.
  split; [reflexivity|].
  exact (muted_audio_never_reaches_encoder example_env_muted [x01; x02]
           (loop_init (0 : Z)) eq_refl).
Defined.

(** X3 on the example: a one-byte frame that is not zero. *)
Lemma loud_frame_is_transmitted_witness :
  muted example_env = false
  ∧ all_zero [x01] = false
  ∧ let r := loop_body example_env [x01] (loop_init (0 : Z)) in
    consecutive_silence r.1 = 0
    ∧ encoded r.2 = [[x01]]
    ∧ send_targets r.2 = connected_clients example_env
    ∧ Forall (λ c, getattr_dmb_speaking (_dmb_speaking r.1) c
                   = SpeakingState.voice)
        (connected_clients example_env).
Proof.
  split; [reflexivity|]. split; [reflexivity|].
  exact (loud_frame_is_transmitted example_env [x01] (loop_init (0 : Z))
           eq_refl eq_refl).
Defined.

(** X5 on the example: of three silent frames, two are encoded. *)
Lemma silence_transmits_at_most_two_frames_witness :
  consecutive_silence (loop_init (0 : Z)) = 0
  ∧ Forall (λ f, silent_frame f = true) example_silence
  ∧ length (concat (encoded <$>
       (encode_voice_loop ((λ f, frame f.1 f.2) <$> example_silence)
          (loop_init (0 : Z))).2))
    = min (length example_silence) 2.
Proof.
  assert (Forall (λ f, silent_frame f = true) example_silence) as Hall
    by (repeat constructor).
  split; [reflexivity|]. split; [exact Hall|].
  exact (silence_transmits_at_most_two_frames (loop_init (0 : Z))
           example_silence eq_refl Hall).
Defined.

(** X6 on the example: the frame after the sentinel is not processed. *)
Lemma loop_returns_at_first_stop_witness :
  stops example_stop = true
  ∧ encode_voice_loop
      (((λ f, frame f.1 f.2) <$> [(example_env, [x01])])
       ++ example_stop :: [frame example_env [x02]])
      (loop_init (0 : Z))
    = encode_voice_loop ((λ f, frame f.1 f.2) <$> [(example_env, [x01])])
        (loop_init (0 : Z)).
Proof.
  split; [reflexivity|].
  exact (loop_returns_at_first_stop [(example_env, [x01])] example_stop
           [frame example_env [x02]] (loop_init (0 : Z)) eq_refl).
Defined.

(** X7 on the example. *)
Lemma joined_stays_duplicate_free_witness :
  NoDup (joined example_model)
  ∧ NoDup (joined (state_of (join_voice 1 None example_model)))
  ∧ NoDup (joined (state_of (leave_voice 1 [(10, 1)] example_model))).
Proof.
  assert (NoDup (joined example_model)) as Hnd
    by (refine (bool_decide_unpack _ _); vm_compute; exact I).
  split; [exact Hnd|].
  exact (joined_stays_duplicate_free example_model 1 None [(10, 1)] Hnd).
Defined.

(** X8 on the example: leaving channel 1, on which client 10 is. *)
Lemma leave_voice_removes_channel_witness :
  NoDup (joined example_model)
  ∧ 1 ∈ joined example_model
  ∧ let r := leave_voice 1 [(10, 1); (11, 2)] example_model in
    outcome_of r = Ok tt
    ∧ (1 ∉ joined (state_of r))
    ∧ (∀ c, c ∈ joined (state_of r) ↔ c ∈ joined example_model ∧ c ≠ 1)
    ∧ length (joined example_model) = S (length (joined (state_of r)))
    ∧ events_of r
      = ((λ c : Z * Z, EvDisconnect c.1)
           <$> filter (λ c, c.2 = 1) [(10, 1); (11, 2)])
        ++ (if v example_model then [EvJoinedUpdated] else []).
Proof.
  assert (NoDup (joined example_model)) as Hnd
    by (refine (bool_decide_unpack _ _); vm_compute; exact I).
  assert (1 ∈ joined example_model) as Hin
    by (refine (bool_decide_unpack _ _); vm_compute; exact I).
  split; [exact Hnd|]. split; [exact Hin|].
  exact (leave_voice_removes_channel example_model 1 [(10, 1); (11, 2)]
           Hnd Hin).
Defined.

(** X9 on the example: joining and leaving channel 3. *)
Lemma join_then_leave_restores_joined_witness :
  (3 ∉ joined example_model)
  ∧ let r := join_voice 3 None example_model in
    let r' := leave_voice 3 [(12, 3)] (state_of r) in
    outcome_of r = Ok tt
    ∧ 3 ∈ joined (state_of r)
    ∧ outcome_of r' = Ok tt
    ∧ joined (state_of r') = joined example_model.
Proof.
  assert (3 ∉ joined example_model) as Hnot
    by (refine (bool_decide_unpack _ _); vm_compute; exact I).
  split; [exact Hnot|].
  exact (join_then_leave_restores_joined example_model 3 [(12, 3)] Hnot).
Defined.

(** X12 on the example. *)
Lemma SoundDevice_repr_inj_witness :
  SoundDevice_repr example_sound_device = "* Microphone"
  ∧ SoundDevice_repr {| sd_name := "Microphone"; is_default := true |}
    = SoundDevice_repr example_sound_device
  ∧ {| sd_name := "Microphone"; is_default := true |} = example_sound_device.
Proof.
  split; [reflexivity|]. split; [reflexivity|].
  exact (SoundDevice_repr_inj
           {| sd_name := "Microphone"; is_default := true |}
           example_sound_device eq_refl).
Defined.

(** X17 on the example: guild 1 is chosen, then guild 2. *)
Lemma view_guild_drops_stale_answer_witness :
  (1 : Z) ≠ 2
  ∧ let g2 := view_guild_request (Some 2)
                (view_guild_request (Some 1) (guild_view_init true)) in
    view_guild_response 1 example_fetched g2 = (g2, false)
    ∧ channels g2 = []
    ∧ channels (view_guild_response 2 example_fetched
                  (view_guild_response 1 example_fetched g2).1).1
      = filter (λ i, ch_is_voice i = true) example_fetched
    ∧ view_guild_response 1 example_fetched
        (view_guild_response 2 example_fetched g2).1
      = ((view_guild_response 2 example_fetched g2).1, false)
    ∧ channels (view_guild_response 2 example_fetched g2).1
      = filter (λ i, ch_is_voice i = true) example_fetched.
Proof.
  assert ((1 : Z) ≠ 2) as Hne by (intros Heq; discriminate Heq).
  split; [exact Hne|].
  exact (view_guild_drops_stale_answer (guild_view_init true) 1 2
           example_fetched example_fetched Hne).
Defined.
